(** * A linked-list queue of strings (queue.c): model and verification

    The C program keeps a singly linked chain of [list_ele_t] nodes, each
    owning a heap-allocated string, behind a [queue_t] header that caches
    the first node, the last node and the number of nodes.  This file
    embeds the functions of [queue.c] as executable Rocq functions over an
    explicit memory and proves the properties of the queue operations.

    Conventions of the embedding:
    - the data model is LP64: [int] has 32 bits, [size_t] has 64 bits,
      conversions wrap;
    - a pointer is [option positive], [None] being [NULL];
    - memory is typed: one finite map holds the [list_ele_t] nodes, another
      the [char] blocks; a block is represented by the C string it holds
      (its bytes before the terminating NUL);
    - a function returns [None] when the C program has no defined result:
      a load, store or [free] through a pointer that is not allocated, an
      access outside a block, or a loop that does not terminate. *)

From Stdlib Require Import ZArith Lia Strings.Byte Strings.String.
From stdpp Require Import base option gmap list sorting.

Local Open Scope Z_scope.

(** ** Machine integers *)

Definition INT_MAX : Z := 2147483647.
Definition INT_MIN : Z := -2147483648.
Definition SIZE_MAX : Z := 18446744073709551615.

(** Conversion to [int] (two's complement, 32 bits).  [count++] and
    [count--] are modelled by it as well: an overflow of the [int] wraps. *)
Definition to_int (z : Z) : Z := (z + 2147483648) mod 4294967296 - 2147483648.

(** Conversion to [size_t] (64 bits, unsigned). *)
Definition to_size_t (z : Z) : Z := z mod 18446744073709551616.

(** ** Strings *)

(** [strlen] of a C string given by its bytes before the terminator. *)
Definition strlen (s : list byte) : Z := Z.of_nat (length s).

(** [strcmp]: the first differing byte decides, compared as [unsigned char];
    a proper prefix is smaller (its terminator is the smaller byte).  Only
    the sign of the result is specified by the C library. *)
Fixpoint strcmp (a b : list byte) : Z :=
  match a, b with
  | [], [] => 0
  | [], _ :: _ => -1
  | _ :: _, [] => 1
  | x :: a', y :: b' =>
      match N.compare (Byte.to_N x) (Byte.to_N y) with
      | Lt => -1
      | Gt => 1
      | Eq => strcmp a' b'
      end
  end.

(** ** Memory *)

Abbreviation addr := positive (only parsing).
Abbreviation ptr := (option positive) (only parsing).

(** [list_ele_t]: [char *value; struct ELE *next]. *)
Record list_ele_t := Ele { value : ptr; next : ptr }.

(** [queue_t]: [list_ele_t *head; list_ele_t *last_element; int count]. *)
Record queue_t := Queue { head : ptr; last_element : ptr; count : Z }.

Record mem := Mem {
  eles : gmap positive list_ele_t;
  strs : gmap positive (list byte)
}.

Definition empty_mem : mem := Mem ∅ ∅.

Definition with_eles (m : mem) (E : gmap positive list_ele_t) : mem :=
  Mem E (strs m).
Definition with_strs (m : mem) (S : gmap positive (list byte)) : mem :=
  Mem (eles m) S.

(** The address handed out by a successful [malloc]: one that no live block
    occupies. *)
Definition fresh_addr (m : mem) : positive :=
  fresh (dom (eles m) ∪ dom (strs m)).

(** [malloc(sizeof(list_ele_t))]; [ok] is the outcome chosen by the
    allocator (the test harness can make any call fail).  The fields of the
    new node are indeterminate; they are written before they are read. *)
Definition malloc_ele (ok : bool) (m : mem) : ptr * mem :=
  if ok then
    let a := fresh_addr m in
    (Some a, with_eles m (<[a := Ele None None]> (eles m)))
  else (None, m).

(** [malloc] of a [char] block.  The requested size does not occur here:
    it decides which stores into the block are inside it, see
    [copy_string].  The request [len + 1] is computed in [int]: the model
    stands for the program when [len + 1] is an [int], that is for strings
    of less than [INT_MAX] bytes, and the theorems about successful
    insertions are stated for those. *)
Definition malloc_str (ok : bool) (m : mem) : ptr * mem :=
  if ok then
    let a := fresh_addr m in
    (Some a, with_strs m (<[a := []]> (strs m)))
  else (None, m).

(** [free] of a node: [free(NULL)] does nothing, any other pointer has to
    be a live node. *)
Definition free_ele (p : ptr) (m : mem) : option mem :=
  match p with
  | None => Some m
  | Some a =>
      match eles m !! a with
      | Some _ => Some (with_eles m (delete a (eles m)))
      | None => None
      end
  end.

Definition free_str (p : ptr) (m : mem) : option mem :=
  match p with
  | None => Some m
  | Some a =>
      match strs m !! a with
      | Some _ => Some (with_strs m (delete a (strs m)))
      | None => None
      end
  end.

(** [*p] for a node pointer. *)
Definition load (m : mem) (p : ptr) : option list_ele_t :=
  a ← p; eles m !! a.

(** [p->next = n]. *)
Definition store_next (m : mem) (p : ptr) (n : ptr) : option mem :=
  a ← p; e ← eles m !! a;
  Some (with_eles m (<[a := Ele (value e) n]> (eles m))).

(** [p->value = v]. *)
Definition store_value (m : mem) (p : ptr) (v : ptr) : option mem :=
  a ← p; e ← eles m !! a;
  Some (with_eles m (<[a := Ele v (next e)]> (eles m))).

(** The C string in the block [p->value] points to. *)
Definition load_str (m : mem) (v : ptr) : option (list byte) :=
  a ← v; strs m !! a.

(** [strncpy(dst, s, len); dst[len] = '\0'] into the block at [dst], which
    was allocated with [len + 1] bytes.  With [len < 0] the block is empty
    or the terminator is stored in front of it. *)
Definition copy_string (m : mem) (dst : ptr) (s : list byte) (len : Z)
  : option mem :=
  a ← dst; _ ← strs m !! a;
  if bool_decide (0 ≤ len)
  then Some (with_strs m (<[a := take (Z.to_nat len) s]> (strs m)))
  else None.

(** ** The caller's output buffer *)

(** [memcpy(sp, value, realBufsize); *(sp + realBufsize) = '\0'], where
    [value] is the block holding the string [v] and its terminator.  The
    result lists the bytes stored at [sp[0]], [sp[1]], ...  With a negative
    [realBufsize] the byte count of [memcpy] wraps to more than the block
    of [value] holds and the terminator is stored in front of [sp]. *)
Definition copy_out (v : list byte) (realBufsize : Z) : option (list byte) :=
  if bool_decide (0 ≤ realBufsize ≤ strlen v + 1)
  then Some (take (Z.to_nat realBufsize) (v ++ ["000"%byte]) ++ ["000"%byte])
  else None.

(** ** The functions of queue.c *)

(** [q_new]: [ok] is the outcome of the only allocation. *)
Definition q_new (ok : bool) : option queue_t :=
  if ok then Some (Queue None None 0) else None.

(** [q_insert_head(q, s)]: [node_ok] and [str_ok] are the outcomes of the
    [malloc] of the node and of the [malloc] of the string.  The result is
    the memory, the queue and the returned [bool]. *)
Definition q_insert_head (node_ok str_ok : bool) (m : mem)
    (q : option queue_t) (s : list byte)
  : option (mem * option queue_t * bool) :=
  match q with
  | None => Some (m, q, false)
  | Some q0 =>
      let '(newh, m1) := malloc_ele node_ok m in
      let len := to_int (strlen s) in
      match newh with
      | None => Some (m1, q, false)
      | Some _ =>
          let '(v, m2) := malloc_str str_ok m1 in
          m3 ← store_value m2 newh v;
          match v with
          | None => m4 ← free_ele newh m3; Some (m4, q, false)
          | Some _ =>
              m4 ← copy_string m3 v s len;
              m5 ← store_next m4 newh (head q0);
              let q1 := Queue newh (last_element q0) (to_int (count q0 + 1)) in
              e ← load m5 newh;
              let q2 := match next e with
                        | None => Queue (head q1) newh (count q1)
                        | Some _ => q1
                        end in
              Some (m5, Some q2, true)
          end
      end
  end.

(** [q_insert_tail(q, s)], with the same conventions. *)
Definition q_insert_tail (node_ok str_ok : bool) (m : mem)
    (q : option queue_t) (s : list byte)
  : option (mem * option queue_t * bool) :=
  match q with
  | None => Some (m, q, false)
  | Some q0 =>
      let '(newh, m1) := malloc_ele node_ok m in
      let len := to_int (strlen s) in
      match newh with
      | None => Some (m1, q, false)
      | Some _ =>
          let '(v, m2) := malloc_str str_ok m1 in
          m3 ← store_value m2 newh v;
          match v with
          | None => m4 ← free_ele newh m3; Some (m4, q, false)
          | Some _ =>
              m4 ← copy_string m3 v s len;
              m5 ← store_next m4 newh None;
              '(m6, q1) ←
                match last_element q0 with
                | None => Some (m5, Queue newh newh (count q0))
                | Some _ =>
                    m' ← store_next m5 (last_element q0) newh;
                    Some (m', Queue (head q0) newh (count q0))
                end;
              Some (m6, Some (Queue (head q1) (last_element q1)
                                    (to_int (count q1 + 1))), true)
          end
      end
  end.

(** [q_remove_head(q, sp, bufsize)].  The third component of the result
    is what the call stored through [sp]: [None] when it stored nothing,
    otherwise the bytes stored from [sp[0]] on.  The caller's buffer is
    not part of the memory: whether the stores stay inside its [bufsize]
    bytes is read off the length of that list. *)
Definition q_remove_head (m : mem) (q : option queue_t)
    (sp : ptr) (bufsize : Z)
  : option (mem * option queue_t * option (list byte) * bool) :=
  match q with
  | None => Some (m, q, None, false)
  | Some q0 =>
      match head q0 with
      | None => Some (m, q, None, false)
      | Some _ =>
          stored ← match sp with
                   | None => Some None
                   | Some _ =>
                       e ← load m (head q0);
                       v ← load_str m (value e);
                       let realBufsize :=
                         to_int (if bool_decide
                                      (strlen v < to_size_t (bufsize - 1))
                                 then strlen v
                                 else to_size_t (bufsize - 1)) in
                       bytes ← copy_out v realBufsize;
                       Some (Some bytes)
                   end;
          let target := head q0 in
          e ← load m target;
          let q1 := Queue (next e) (last_element q0) (to_int (count q0 - 1)) in
          m1 ← free_str (value e) m;
          m2 ← free_ele target m1;
          let q2 := match head q1 with
                    | None => Queue (head q1) None (count q1)
                    | Some _ => q1
                    end in
          Some (m2, Some q2, stored, true)
      end
  end.

(** [q_size(q)]. *)
Definition q_size (q : option queue_t) : Z :=
  match q with
  | Some q0 => count q0
  | None => 0
  end.

(** The loop of [q_reverse]; an iteration costs one unit of fuel. *)
Fixpoint reverse_loop (fuel : nat) (m : mem) (prev current : ptr)
  : option (mem * ptr) :=
  match current with
  | None => Some (m, prev)
  | Some _ =>
      match fuel with
      | O => None
      | S fuel' =>
          e ← load m current;
          let temp := next e in
          m' ← store_next m current prev;
          reverse_loop fuel' m' current temp
      end
  end.

(** A chain without a cycle has at most as many nodes as the memory has,
    so that many iterations are enough for every loop over a chain. *)
Definition chain_fuel (m : mem) : nat := size (eles m).

(** [q_reverse(q)]. *)
Definition q_reverse (m : mem) (q : option queue_t)
  : option (mem * option queue_t) :=
  match q with
  | None => Some (m, q)
  | Some q0 =>
      let q1 := Queue (head q0) (head q0) (count q0) in
      '(m', prev) ← reverse_loop (chain_fuel m) m None (head q1);
      Some (m', Some (Queue prev (last_element q1) (count q1)))
  end.

(** [comparator(a, b)]: [strcmp] of the two nodes' strings. *)
Definition comparator (m : mem) (a b : ptr) : option Z :=
  ea ← load m a; eb ← load m b;
  sa ← load_str m (value ea); sb ← load_str m (value eb);
  Some (strcmp sa sb).

(** The fast/slow scan of [mergesort]; the result is the final [slow]. *)
Fixpoint split_loop (fuel : nat) (m : mem) (slow fast : ptr) : option ptr :=
  ef ← load m fast;
  match next ef with
  | None => Some slow
  | Some _ =>
      ef1 ← load m (next ef);
      match next ef1 with
      | None => Some slow
      | Some _ =>
          match fuel with
          | O => None
          | S fuel' =>
              es ← load m slow;
              split_loop fuel' m (next es) (next ef1)
          end
      end
  end.

(** One branch of the merge loop: the node [node] (the front of [left] or
    of [right]) is unlinked from its chain and appended after [merge].  The
    result is the memory, the new [start], and the rest of the chain
    [node] came from; [node] is the new [merge]. *)
Definition merge_take (m : mem) (start merge node : ptr)
  : option (mem * ptr * ptr) :=
  e ← load m node;
  let next_ := next e in
  '(m1, start1) ← match merge with
                   | None => Some (m, node)
                   | Some _ => m' ← store_next m merge node; Some (m', start)
                   end;
  m2 ← store_next m1 node None;
  Some (m2, start1, next_).

(** The merge loop of [mergesort]. *)
Fixpoint merge_loop (fuel : nat) (compar : mem → ptr → ptr → option Z)
    (m : mem) (start merge left right : ptr) : option (mem * ptr) :=
  match left, right with
  | None, None => Some (m, start)
  | _, _ =>
      match fuel with
      | O => None
      | S fuel' =>
          from_left ←
            match right with
            | None => Some true
            | Some _ =>
                match left with
                | None => Some false
                | Some _ => c ← compar m left right; Some (bool_decide (c < 0))
                end
            end;
          if from_left : bool then
            '(m', start', next_) ← merge_take m start merge left;
            merge_loop fuel' compar m' start' left next_ right
          else
            '(m', start', next_) ← merge_take m start merge right;
            merge_loop fuel' compar m' start' right left next_
      end
  end.

(** [mergesort(start, compar)].  [fuel] bounds the depth of the recursion
    and the iterations of each loop. *)
Fixpoint mergesort (fuel : nat) (compar : mem → ptr → ptr → option Z)
    (m : mem) (start : ptr) : option (mem * ptr) :=
  match start with
  | None => Some (m, start)
  | Some _ =>
      e ← load m start;
      match next e with
      | None => Some (m, start)
      | Some _ =>
          match fuel with
          | O => None
          | S fuel' =>
              slow ← split_loop fuel' m start start;
              eslow ← load m slow;
              let left := start in
              let right := next eslow in
              m1 ← store_next m slow None;
              '(m2, left') ← mergesort fuel' compar m1 left;
              '(m3, right') ← mergesort fuel' compar m2 right;
              merge_loop fuel' compar m3 start None left' right'
          end
      end
  end.

(** The walk to the last node at the end of [q_sort]. *)
Fixpoint find_end (fuel : nat) (m : mem) (end_ : ptr) : option ptr :=
  e ← load m end_;
  match next e with
  | None => Some end_
  | Some _ =>
      match fuel with
      | O => None
      | S fuel' => find_end fuel' m (next e)
      end
  end.

(** [q_sort(q)]. *)
Definition q_sort (m : mem) (q : option queue_t)
  : option (mem * option queue_t) :=
  match q with
  | None => Some (m, q)
  | Some q0 =>
      match head q0 with
      | None => Some (m, q)
      | Some _ =>
          if bool_decide (count q0 = 1) then Some (m, q)
          else
            '(m', h) ← mergesort (S (chain_fuel m)) comparator m (head q0);
            end_ ← find_end (chain_fuel m') m' h;
            Some (m', Some (Queue h end_ (count q0)))
      end
  end.

(** The loop of [q_free]; an iteration costs one unit of fuel. *)
Fixpoint free_loop (fuel : nat) (m : mem) (head_ : ptr) : option mem :=
  match head_ with
  | None => Some m
  | Some _ =>
      match fuel with
      | O => None
      | S fuel' =>
          let tmp := head_ in
          e ← load m tmp;
          m1 ← free_str (value e) m;
          m2 ← free_ele tmp m1;
          free_loop fuel' m2 (next e)
      end
  end.

(** [q_free(q)].  The [queue_t] block itself is not part of the memory
    model; after the call the handle is gone, the result is the memory. *)
Definition q_free (m : mem) (q : option queue_t) : option mem :=
  match q with
  | None => Some m
  | Some q0 => free_loop (chain_fuel m) m (head q0)
  end.

(** ** List-level counterparts of the loops *)

(** An element of the queue as the proofs see it: the address of its node,
    the address of its string block and the string. *)
Record elem := Elem { node : positive; str : positive; val : list byte }.

Definition nodes (l : list elem) : list positive := node <$> l.
Definition values (l : list elem) : list (list byte) := val <$> l.

(** The test of the merge loop on the two front nodes. *)
Definition before (x y : elem) : bool :=
  bool_decide (strcmp (val x) (val y) < 0).

(** What the merge loop computes: the front of the left list is taken when
    it compares strictly smaller, the front of the right list otherwise. *)
Fixpoint merge_list (l1 : list elem) : list elem → list elem :=
  fix merge_right (l2 : list elem) : list elem :=
    match l1, l2 with
    | [], _ => l2
    | _, [] => l1
    | x :: l1', y :: l2' =>
        if before x y then x :: merge_list l1' l2 else y :: merge_right l2'
    end.

(** The number of nodes the fast/slow scan leaves in the left half. *)
Definition left_half (n : nat) : nat := S ((n - 1) / 2)%nat.

(** What [mergesort] computes. *)
Fixpoint sort_list (fuel : nat) (l : list elem) : list elem :=
  match l with
  | [] | [_] => l
  | _ =>
      match fuel with
      | O => l
      | S fuel' =>
          let k := left_half (length l) in
          merge_list (sort_list fuel' (take k l)) (sort_list fuel' (drop k l))
      end
  end.

(** ** Representation *)

(** [lseg m p l q]: in [m], following [next] from [p] visits exactly the
    nodes of [l], each with its own string, and ends in [q]. *)
Fixpoint lseg (m : mem) (p : ptr) (l : list elem) (q : ptr) : Prop :=
  match l with
  | [] => p = q
  | x :: l' =>
      p = Some (node x) ∧ strs m !! str x = Some (val x) ∧
      ∃ n, eles m !! node x = Some (Ele (Some (str x)) n) ∧ lseg m n l' q
  end.

(** The shape of a queue: the chain from [head] is [l] (finite, hence no
    cycle), no node and no string block occurs twice (each element owns its
    string), [last_element] is the last node, and every string has a
    length that [q_insert_head] and [q_insert_tail] can produce. *)
Record chain_rep (m : mem) (q : queue_t) (l : list elem) : Prop := ChainRep {
  rep_chain : lseg m (head q) l None;
  rep_nodes : NoDup (nodes l);
  rep_strs : NoDup (str <$> l);
  rep_last : last_element q = node <$> last l;
  rep_vals : Forall (λ x, strlen (val x) ≤ INT_MAX) l
}.

(** The data model and its invariants: the shape above, and [count] is
    the number of nodes and, being an [int], at most [INT_MAX]. *)
Record queue_rep (m : mem) (q : queue_t) (l : list elem) : Prop := QueueRep {
  rep_shape : chain_rep m q l;
  rep_count : count q = Z.of_nat (length l);
  rep_count_int : count q ≤ INT_MAX
}.

(** The invariants in the words of the data model. *)
Definition reachable (m : mem) (p : ptr) (n : nat) (a : positive) : Prop :=
  ∃ l, lseg m p l (Some a) ∧ length l = n.

Record invariant (m : mem) (q : queue_t) : Prop := Invariant {
  inv_head_tail : head q = None ↔ last_element q = None;
  inv_tail_count : last_element q = None ↔ count q = 0;
  inv_tail_next :
    ∀ t, last_element q = Some t →
         ∃ e, eles m !! t = Some e ∧ next e = None;
  inv_tail_last :
    ∀ t, last_element q = Some t → ∃ n, reachable m (head q) n t;
  inv_count_acyclic :
    ∃ l, lseg m (head q) l None ∧ NoDup (nodes l) ∧
         count q = Z.of_nat (length l)
}.

(** Memory changes that only rewrite [next] fields of the nodes in [A]. *)
Record relinked (A : list positive) (m m' : mem) : Prop := Relinked {
  relinked_strs : strs m' = strs m;
  relinked_value : ∀ a, value <$> eles m' !! a = value <$> eles m !! a;
  relinked_other : ∀ a, a ∉ A → eles m' !! a = eles m !! a
}.

(** ** Order, results of the operations, observation *)

(** Ascending order of two elements: [comparator(x, y) <= 0]. *)
Definition ascending (x y : elem) : Prop := strcmp (val x) (val y) ≤ 0.

(** Ascending order of two strings. *)
Definition str_le (a b : list byte) : Prop := strcmp a b ≤ 0.

Global Instance byte_eq_dec : EqDecision byte := Byte.byte_eq_dec.

(** The merged part of the chain during the merge loop: nothing yet and
    [merge] is null, or a chain from [start] whose last node is [merge]. *)
Definition merged (m : mem) (start merge : ptr) (done : list elem) : Prop :=
  match last done with
  | None => merge = None
  | Some x => merge = Some (node x) ∧ lseg m start done None
  end.

(** The element that an insertion of [s] into [m] creates, and the memory
    after the insertion when the new node points to [n]. *)
Definition inserted_elem (m : mem) (s : list byte) : elem :=
  let a := fresh_addr m in
  Elem a (fresh_addr (with_eles m (<[a := Ele None None]> (eles m)))) s.

Definition inserted_mem (m : mem) (s : list byte) (n : ptr) : mem :=
  let x := inserted_elem m s in
  Mem (<[node x := Ele (Some (str x)) n]> (eles m))
      (<[str x := s]> (strs m)).

(** The number of bytes of the string that [q_remove_head] copies. *)
Definition copied (len bufsize : Z) : Z :=
  if bool_decide (bufsize = 0) then len else Z.min len (bufsize - 1).

(** The memory and the queue after the removal of the element [x] whose
    node points to [n]. *)
Definition removed_mem (m : mem) (x : elem) : mem :=
  Mem (delete (node x) (eles m)) (delete (str x) (strs m)).

Definition removed_queue (q : queue_t) (n : ptr) : queue_t :=
  match n with
  | None => Queue None None (to_int (count q - 1))
  | Some _ => Queue n (last_element q) (to_int (count q - 1))
  end.

(** The nodes met on the way from [p], each with its string. *)
Fixpoint walk (fuel : nat) (m : mem) (p : ptr) : list (positive * list byte) :=
  match p, fuel with
  | Some a, S fuel' =>
      match eles m !! a with
      | Some e => (a, default [] (load_str m (value e))) :: walk fuel' m (next e)
      | None => []
      end
  | _, _ => []
  end.

Definition elements (m : mem) (q : queue_t) : list (positive * list byte) :=
  walk (chain_fuel m) m (head q).

(** A computable check of [lseg] and of [queue_rep]. *)
Fixpoint lseg_check (m : mem) (p : ptr) (l : list elem) (r : ptr) : bool :=
  match l with
  | [] => bool_decide (p = r)
  | x :: l' =>
      bool_decide (p = Some (node x)) &&
      bool_decide (strs m !! str x = Some (val x)) &&
      match eles m !! node x with
      | Some e => bool_decide (value e = Some (str x)) && lseg_check m (next e) l' r
      | None => false
      end
  end.

Definition queue_rep_check (m : mem) (q : queue_t) (l : list elem) : bool :=
  lseg_check m (head q) l None &&
  bool_decide (NoDup (nodes l)) && bool_decide (NoDup (str <$> l)) &&
  bool_decide (last_element q = node <$> last l) &&
  bool_decide (Forall (λ x, strlen (val x) ≤ INT_MAX) l) &&
  bool_decide (count q = Z.of_nat (length l)) &&
  bool_decide (count q ≤ INT_MAX).

(** The bytes of a string literal. *)
Definition bytes (s : string) : list byte := String.list_byte_of_string s.

(** The queue obtained from the empty one by [q_insert_tail] of each
    string in turn, all allocations succeeding. *)
Fixpoint insert_all (m : mem) (q : option queue_t) (ss : list (list byte))
  : option (mem * option queue_t) :=
  match ss with
  | [] => Some (m, q)
  | s :: ss' =>
      '(m', q', _) ← q_insert_tail true true m q s;
      insert_all m' q' ss'
  end.

Definition queue_of (ss : list string) : option (mem * option queue_t) :=
  insert_all empty_mem (q_new true) (bytes <$> ss).

(** [n] calls [q_remove_head(q, NULL, 0)], all of them successful. *)
Fixpoint drain (n : nat) (m : mem) (q : option queue_t)
  : option (mem * option queue_t) :=
  match n with
  | O => Some (m, q)
  | S n' =>
      '(m', q', _, ok) ← q_remove_head m q None 0;
      if ok : bool then drain n' m' q' else None
  end.

(** [x] occurs before [y] in [l]. *)
Definition precedes (x y : elem) (l : list elem) : Prop :=
  ∃ l1 l2 l3, l = l1 ++ x :: l2 ++ y :: l3.

(** The memory and the handle of the queue [queue_of ss]. *)
Definition mem_of (ss : list string) : mem :=
  from_option fst empty_mem (queue_of ss).

Definition handle_of (ss : list string) : queue_t :=
  default (Queue None None 0) (queue_of ss ≫= snd).

(** ** Particular queues *)

(** A queue of [n] empty strings, laid out as [n] calls
    [q_insert_tail(q, "")] on a new queue lay it out: node [i] lies at
    address [2 i + 1], its string at [2 i + 2]. *)
Definition nth_node (i : nat) : positive := Pos.of_nat (2 * i + 1).
Definition nth_str (i : nat) : positive := Pos.of_nat (2 * i + 2).
Definition nth_elem (i : nat) : elem := Elem (nth_node i) (nth_str i) [].
Definition nth_ptr (n i : nat) : ptr :=
  if decide (i < n)%nat then Some (nth_node i) else None.

Definition long_list (n : nat) : list elem := nth_elem <$> seq 0 n.

Definition long_mem (n : nat) : mem :=
  Mem (list_to_map
         ((λ i, (nth_node i, Ele (Some (nth_str i)) (nth_ptr n (S i))))
            <$> seq 0 n))
      (list_to_map ((λ i, (nth_str i, [])) <$> seq 0 n)).

Definition long_queue (n : nat) : queue_t :=
  Queue (nth_ptr n 0) (nth_ptr n (pred n)) (Z.of_nat n).

(** The largest queue whose [count] is an [int]. *)
Definition full_len : nat := Z.to_nat INT_MAX.

(** A string of [2^32 - 1] bytes: its [strlen] converts to the [int] -1. *)
Definition huge_string : list byte := repeat "a"%byte (Z.to_nat 4294967295).

(** A string of [2^32 + 2] bytes: its [strlen] converts to the [int] 2. *)
Definition wide_string : list byte := repeat "a"%byte (Z.to_nat 4294967298).

(** The queue ["banana"; "apple"; "cherry"]. *)
Definition fruit_mem : mem := mem_of ["banana"; "apple"; "cherry"]%string.
Definition fruit_queue : queue_t := handle_of ["banana"; "apple"; "cherry"]%string.
Definition fruit_list : list elem :=
  [Elem 1 2 (bytes "banana"); Elem 3 4 (bytes "apple");
   Elem 5 6 (bytes "cherry")].

(** The queue ["a"; "a"]: two elements with the same string. *)
Definition twin_mem : mem := mem_of ["a"; "a"]%string.
Definition twin_queue : queue_t := handle_of ["a"; "a"]%string.
Definition twin_first : elem := Elem 1 2 (bytes "a").
Definition twin_second : elem := Elem 3 4 (bytes "a").

(** ** The rest of the memory, sequences of calls *)

(** The part of the memory that lies outside the elements [l]. *)
Definition rest (m : mem) (l : list elem) : mem :=
  Mem (filter (λ kv, kv.1 ∉ nodes l) (eles m))
      (filter (λ kv, kv.1 ∉ str <$> l) (strs m)).

Global Instance str_le_dec : RelDecision str_le :=
  λ a b, decide (strcmp a b ≤ 0).

(** A call of one of the operations on a queue; the insertions carry the
    outcomes of their two allocations. *)
Inductive op :=
  | InsertHead (node_ok str_ok : bool) (s : list byte)
  | InsertTail (node_ok str_ok : bool) (s : list byte)
  | RemoveHead (sp : ptr) (bufsize : Z)
  | Reverse
  | Sort.

Definition run_op (o : op) (m : mem) (q : option queue_t)
  : option (mem * option queue_t) :=
  match o with
  | InsertHead node_ok str_ok s =>
      '(m', q', _) ← q_insert_head node_ok str_ok m q s; Some (m', q')
  | InsertTail node_ok str_ok s =>
      '(m', q', _) ← q_insert_tail node_ok str_ok m q s; Some (m', q')
  | RemoveHead sp bufsize =>
      '(m', q', _, _) ← q_remove_head m q sp bufsize; Some (m', q')
  | Reverse => q_reverse m q
  | Sort => q_sort m q
  end.

(** A sequence of calls, one after the other. *)
Fixpoint run (ops : list op) (m : mem) (q : option queue_t)
  : option (mem * option queue_t) :=
  match ops with
  | [] => Some (m, q)
  | o :: ops' => '(m', q') ← run_op o m q; run ops' m' q'
  end.

(** The same calls on the list of the stored strings. *)
Definition model_op (o : op) (v : list (list byte)) : list (list byte) :=
  match o with
  | InsertHead node_ok str_ok s => if node_ok && str_ok then s :: v else v
  | InsertTail node_ok str_ok s => if node_ok && str_ok then v ++ [s] else v
  | RemoveHead _ _ => drop 1 v
  | Reverse => reverse v
  | Sort => merge_sort str_le v
  end.

Definition model (ops : list op) (v : list (list byte)) : list (list byte) :=
  foldl (λ v o, model_op o v) v ops.

(** The arguments for which the integer arithmetic of a call is exact and
    its stores stay inside the caller's buffer: [len + 1] is an [int],
    [bufsize] is a [size_t], and a buffer that is not null has room for
    the terminator at least. *)
Definition op_ok (o : op) : Prop :=
  match o with
  | InsertHead _ _ s | InsertTail _ _ s => strlen s < INT_MAX
  | RemoveHead None bufsize => 0 ≤ bufsize ≤ SIZE_MAX
  | RemoveHead (Some _) bufsize => 1 ≤ bufsize ≤ SIZE_MAX
  | Reverse | Sort => True
  end.

(** [n] calls [q_remove_head(q, sp, bufsize)], all of them successful; the
    result lists what each call stored through [sp]. *)
Fixpoint remove_all (n : nat) (m : mem) (q : option queue_t)
    (sp : positive) (bufsize : Z)
  : option (mem * option queue_t * list (list byte)) :=
  match n with
  | O => Some (m, q, [])
  | S n' =>
      '(m1, q1, stored, ok) ← q_remove_head m q (Some sp) bufsize;
      if ok : bool then
        '(m2, q2, out) ← remove_all n' m1 q1 sp bufsize;
        Some (m2, q2, default [] stored :: out)
      else None
  end.


(** ** Machine integer facts *)

Lemma to_int_id z : INT_MIN ≤ z ≤ INT_MAX → to_int z = z.
Proof.
  unfold INT_MIN, INT_MAX, to_int. intros ?.
  rewrite Z.mod_small; lia.
Qed.

Lemma to_size_t_id z : 0 ≤ z ≤ SIZE_MAX → to_size_t z = z.
Proof. unfold SIZE_MAX, to_size_t. intros ?. rewrite Z.mod_small; lia. Qed.

Lemma to_size_t_minus_one : to_size_t (0 - 1) = SIZE_MAX.
Proof. reflexivity. Qed.

(** ** List segments *)

Section Lseg.
Implicit Types (m : mem) (p q r : ptr) (l : list elem) (x : elem).

Lemma lseg_app m p l1 l2 q :
  lseg m p (l1 ++ l2) q ↔ ∃ r, lseg m p l1 r ∧ lseg m r l2 q.
Proof.
  revert p. induction l1 as [|x l1 IH]; intros p; simpl.
  - split; [intros H; by exists p | by intros (r & -> & H)].
  - split.
    + intros (-> & Hs & n & He & Hl). apply IH in Hl as (r & H1 & H2).
      exists r. eauto 10.
    + intros (r & (-> & Hs & n & He & Hl) & H2).
      split_and!; [done..|]. exists n. split; [done|]. apply IH. eauto.
Qed.

Lemma lseg_snoc m p l x q :
  lseg m p (l ++ [x]) q ↔
  ∃ r, lseg m p l r ∧ r = Some (node x) ∧ strs m !! str x = Some (val x) ∧
       eles m !! node x = Some (Ele (Some (str x)) q).
Proof.
  rewrite lseg_app. simpl. split.
  - intros (r & H1 & -> & Hs & n & He & ->). eauto 10.
  - intros (r & H1 & -> & Hs & He). eauto 10.
Qed.

(** A segment only depends on the blocks of its own elements. *)
Lemma lseg_frame m m' p l q :
  lseg m p l q →
  (∀ x, x ∈ l → eles m' !! node x = eles m !! node x ∧
                 strs m' !! str x = strs m !! str x) →
  lseg m' p l q.
Proof.
  revert p. induction l as [|x l IH]; intros p; simpl; [done|].
  intros (-> & Hs & n & He & Hl) Hf.
  destruct (Hf x) as [Hfe Hfs]; [left|].
  split_and!; [done|congruence|]. exists n. split; [congruence|].
  apply IH; [done|]. intros y Hy. apply Hf. by right.
Qed.

Lemma lseg_relinked A m m' p l q :
  relinked A m m' → (∀ a, a ∈ nodes l → a ∉ A) →
  lseg m p l q → lseg m' p l q.
Proof.
  intros [Hs Hv Ho] HA Hl. eapply lseg_frame; [done|].
  intros x Hx. rewrite Hs. split; [|done]. apply Ho, HA.
  unfold nodes. apply list_elem_of_fmap. eauto.
Qed.

(** The [k]-th node of a chain points to the [k+1]-st. *)
Lemma lseg_lookup m p l q k x :
  lseg m p l q → l !! k = Some x →
  strs m !! str x = Some (val x) ∧
  eles m !! node x =
    Some (Ele (Some (str x)) (from_option (Some ∘ node) q (l !! S k))).
Proof.
  revert p k. induction l as [|y l IH]; intros p k; simpl; [done|].
  intros (-> & Hs & n & He & Hl) Hk. destruct k as [|k]; simplify_eq/=.
  - split; [done|]. rewrite He. do 2 f_equal.
    destruct l as [|z l]; simpl in *; [done|]. by destruct Hl as [-> _].
  - eauto.
Qed.

Lemma lseg_nodes_dom m p l q a :
  lseg m p l q → a ∈ nodes l → is_Some (eles m !! a).
Proof.
  intros Hl (x & -> & Hx)%list_elem_of_fmap.
  apply list_elem_of_lookup in Hx as [k Hk].
  destruct (lseg_lookup _ _ _ _ _ _ Hl Hk) as [_ ->]. eauto.
Qed.

(** A chain without repetition fits into the memory. *)
Lemma lseg_length_fuel m p l q :
  lseg m p l q → NoDup (nodes l) → (length l ≤ chain_fuel m)%nat.
Proof.
  intros Hl Hnd. unfold chain_fuel.
  rewrite <-(length_fmap node l), <-(size_dom (D:=gset positive)).
  unfold size, set_size; simpl.
  apply submseteq_length, NoDup_submseteq; [done|].
  intros a Ha. apply elem_of_elements, elem_of_dom.
  eapply lseg_nodes_dom; eauto.
Qed.

End Lseg.

(** ** Stores into nodes *)

Section Stores.
Implicit Types (m : mem) (p q r : ptr) (l : list elem) (x : elem).

Lemma store_next_eq m a e n :
  eles m !! a = Some e →
  store_next m (Some a) n =
    Some (with_eles m (<[a := Ele (value e) n]> (eles m))).
Proof. intros He. unfold store_next. simpl. by rewrite He. Qed.

Lemma relinked_refl A m : relinked A m m.
Proof. by split. Qed.

Lemma relinked_trans A m1 m2 m3 :
  relinked A m1 m2 → relinked A m2 m3 → relinked A m1 m3.
Proof.
  intros [Hs1 Hv1 Ho1] [Hs2 Hv2 Ho2]. split.
  - congruence.
  - intros a. by rewrite Hv2.
  - intros a Ha. rewrite Ho2 by done. auto.
Qed.

Lemma relinked_mono A B m m' :
  (∀ a, a ∈ A → a ∈ B) → relinked A m m' → relinked B m m'.
Proof. intros HAB [Hs Hv Ho]. split; [done..|]. intros a Ha. apply Ho. auto. Qed.

Lemma relinked_store_next m a n m' :
  store_next m (Some a) n = Some m' → relinked [a] m m'.
Proof.
  unfold store_next. simpl. destruct (eles m !! a) as [e|] eqn:He; [|done].
  intros [= <-]. split; simpl; [done|..].
  - intros b. destruct (decide (a = b)) as [->|Hne].
    + by rewrite lookup_insert_eq, He.
    + by rewrite lookup_insert_ne.
  - intros b Hb. rewrite lookup_insert_ne; [done|].
    intros ->. apply Hb. left.
Qed.

Lemma relinked_dom A m m' : relinked A m m' → dom (eles m') = dom (eles m).
Proof.
  intros [_ Hv _]. apply set_eq. intros a. rewrite !elem_of_dom.
  specialize (Hv a). rewrite <-!fmap_is_Some with (f := value). by rewrite Hv.
Qed.

Lemma relinked_fuel A m m' : relinked A m m' → chain_fuel m' = chain_fuel m.
Proof.
  intros H. unfold chain_fuel.
  rewrite <-!(size_dom (D:=gset positive)). by rewrite (relinked_dom _ _ _ H).
Qed.

(** Redirecting the last node of a segment. *)
Lemma lseg_store_last m p l x q n m' :
  lseg m p (l ++ [x]) q → node x ∉ nodes l →
  store_next m (Some (node x)) n = Some m' →
  lseg m' p (l ++ [x]) n.
Proof.
  intros (r & Hl & -> & Hs & He)%lseg_snoc Hx Hst.
  pose proof (relinked_store_next _ _ _ _ Hst) as Hrel.
  apply lseg_snoc. exists (Some (node x)). split_and!.
  - eapply lseg_relinked; [done| |done].
    intros a Ha [->|[]%elem_of_nil]%elem_of_cons. done.
  - done.
  - by rewrite (relinked_strs _ _ _ Hrel).
  - rewrite (store_next_eq _ _ _ _ He) in Hst. simplify_eq/=.
    by rewrite lookup_insert_eq.
Qed.

Lemma store_next_lseg m l x q p n :
  lseg m p (x :: l) q → is_Some (store_next m (Some (node x)) n).
Proof.
  intros (_ & _ & n' & He & _).
  rewrite (store_next_eq _ _ _ _ He). eauto.
Qed.

End Stores.

(** ** Reversal *)

Section Reverse.
Implicit Types (m : mem) (p q r : ptr) (l : list elem) (x : elem).

Lemma reverse_loop_spec l : ∀ fuel m prev current done,
  lseg m current l None → lseg m prev done None →
  NoDup (nodes (l ++ done)) → (length l ≤ fuel)%nat →
  ∃ m' p, reverse_loop fuel m prev current = Some (m', p) ∧
          lseg m' p (reverse l ++ done) None ∧
          relinked (nodes l) m m'.
Proof.
  induction l as [|x l IH]; intros fuel m prev current done Hl Hd Hnd Hfuel.
  - simpl in Hl. subst current. exists m, prev.
    split_and!; [by destruct fuel | done | apply relinked_refl].
  - destruct fuel as [|fuel]; [simpl in Hfuel; lia|].
    pose proof Hl as (-> & Hs & n & He & Hl'). simpl.
    rewrite He. simpl.
    set (m1 := with_eles m (<[node x := Ele (Some (str x)) prev]> (eles m))).
    assert (Hrel : relinked [node x] m m1).
    { apply (relinked_store_next m (node x) prev).
      by rewrite (store_next_eq _ _ _ _ He). }
    simpl in Hnd. apply NoDup_cons in Hnd as [Hx Hnd].
    unfold nodes in Hx. rewrite fmap_app in Hx.
    apply not_elem_of_app in Hx as [Hxl Hxd].
    destruct (IH fuel m1 (Some (node x)) n (x :: done)) as (m' & p & Hrun & Hseg & Hrel').
    + eapply lseg_relinked; [done| |done].
      intros a Ha [->|[]%elem_of_nil]%elem_of_cons. done.
    + simpl. split_and!; [done..|]. exists prev. split.
      * unfold m1. simpl. by rewrite lookup_insert_eq.
      * eapply lseg_relinked; [done| |done].
        intros a Ha [->|[]%elem_of_nil]%elem_of_cons. done.
    + unfold nodes. rewrite fmap_app, fmap_cons.
      apply NoDup_app. unfold nodes in Hnd. rewrite fmap_app in Hnd.
      apply NoDup_app in Hnd as (Hn1 & Hn2 & Hn3).
      split_and!; [done| |].
      * intros a Ha [->|Ha']%elem_of_cons; [done|]. by eapply Hn2.
      * apply NoDup_cons. done.
    + simpl in Hfuel. lia.
    + exists m', p. split_and!; [done| |].
      * rewrite reverse_cons, <-app_assoc. done.
      * eapply relinked_trans.
        -- eapply relinked_mono; [|done].
           intros a [->|[]%elem_of_nil]%elem_of_cons. left.
        -- eapply relinked_mono; [|done]. intros a Ha. by right.
Qed.

End Reverse.

(** ** The order given by [strcmp] *)

Section Strcmp.
Implicit Types (a b c : list byte).

Lemma to_N_inj (x y : byte) : Byte.to_N x = Byte.to_N y → x = y.
Proof.
  intros H. pose proof (Byte.of_to_N x) as Hx.
  rewrite H, Byte.of_to_N in Hx. congruence.
Qed.

Lemma strcmp_refl a : strcmp a a = 0.
Proof. induction a as [|x a IH]; simpl; [done|]. by rewrite N.compare_refl. Qed.

Lemma strcmp_eq a b : strcmp a b = 0 → a = b.
Proof.
  revert b. induction a as [|x a IH]; intros [|y b]; simpl; try done.
  destruct (N.compare_spec (Byte.to_N x) (Byte.to_N y)) as [Heq| |]; try done.
  intros ?. f_equal; [by apply to_N_inj | auto].
Qed.

Lemma strcmp_antisym a b : strcmp b a = - strcmp a b.
Proof.
  revert b. induction a as [|x a IH]; intros [|y b]; simpl; try done.
  rewrite (N.compare_antisym (Byte.to_N x) (Byte.to_N y)).
  destruct (Byte.to_N x ?= Byte.to_N y)%N; simpl; auto.
Qed.

Lemma strcmp_trans a b c :
  strcmp a b ≤ 0 → strcmp b c ≤ 0 → strcmp a c ≤ 0.
Proof.
  revert b c. induction a as [|x a IH]; intros [|y b] [|z c]; simpl;
    try done; try lia.
  destruct (N.compare_spec (Byte.to_N x) (Byte.to_N y)) as [Hxy|Hxy|Hxy];
    destruct (N.compare_spec (Byte.to_N y) (Byte.to_N z)) as [Hyz|Hyz|Hyz];
    destruct (N.compare_spec (Byte.to_N x) (Byte.to_N z)) as [Hxz|Hxz|Hxz];
    try lia; eauto.
Qed.

End Strcmp.

Global Instance ascending_trans : Transitive ascending.
Proof. intros x y z. apply strcmp_trans. Qed.

Global Instance str_le_trans : Transitive str_le.
Proof. intros x y z. apply strcmp_trans. Qed.

Global Instance str_le_antisym : AntiSymm (=) str_le.
Proof.
  intros a b Hab Hba. apply strcmp_eq. unfold str_le in *.
  rewrite (strcmp_antisym a b) in Hba. lia.
Qed.

Lemma before_false x y : before x y = false → ascending y x.
Proof.
  unfold before, ascending. intros H%bool_decide_eq_false.
  rewrite (strcmp_antisym (val x) (val y)). lia.
Qed.

Lemma before_true x y : before x y = true → ascending x y.
Proof. unfold before, ascending. intros H%bool_decide_eq_true. lia. Qed.

(** ** The list-level sort *)

Lemma filter_none {A} (P : A → Prop) `{∀ x, Decision (P x)} (l : list A) :
  Forall (λ x, ¬ P x) l → filter P l = [].
Proof.
  induction 1 as [|x l Hx _ IH]; [done|].
  rewrite filter_cons. by case_decide.
Qed.

Section SortList.
Implicit Types (l : list elem) (x y : elem) (k : list byte).

Lemma merge_list_nil_l l : merge_list [] l = l.
Proof. by destruct l. Qed.

Lemma merge_list_nil_r l : merge_list l [] = l.
Proof. by destruct l. Qed.

Lemma merge_list_cons x l1 y l2 :
  merge_list (x :: l1) (y :: l2) =
  if before x y then x :: merge_list l1 (y :: l2)
  else y :: merge_list (x :: l1) l2.
Proof. done. Qed.

Lemma merge_list_perm l1 l2 : merge_list l1 l2 ≡ₚ l1 ++ l2.
Proof.
  revert l2. induction l1 as [|x l1 IH1]; intros l2;
    [by rewrite merge_list_nil_l|].
  induction l2 as [|y l2 IH2]; [by rewrite merge_list_nil_r, app_nil_r|].
  rewrite merge_list_cons. destruct (before x y).
  - simpl. by rewrite IH1.
  - rewrite IH2. by rewrite <-Permutation_middle.
Qed.

Lemma merge_list_sorted l1 l2 :
  StronglySorted ascending l1 → StronglySorted ascending l2 →
  StronglySorted ascending (merge_list l1 l2).
Proof.
  revert l2. induction l1 as [|x l1 IH1]; intros l2 H1 H2;
    [by rewrite merge_list_nil_l|].
  induction l2 as [|y l2 IH2]; [by rewrite merge_list_nil_r|].
  rewrite merge_list_cons.
  apply StronglySorted_inv in H1 as [H1 Hx].
  apply StronglySorted_inv in H2 as [H2 Hy].
  destruct (before x y) eqn:Hxy.
  - constructor; [apply IH1; [done|by constructor]|].
    rewrite merge_list_perm. apply Forall_app. split; [done|].
    apply before_true in Hxy. constructor; [done|].
    eapply Forall_impl; [exact Hy|]. intros z Hz. by trans y.
  - constructor; [apply IH2; done|].
    rewrite merge_list_perm. apply Forall_app. split; [|done].
    apply before_false in Hxy. constructor; [done|].
    eapply Forall_impl; [exact Hx|]. intros z Hz. by trans x.
Qed.

(** Elements with the same string leave the merge with those of the right
    list first. *)
Lemma merge_list_filter k l1 l2 :
  StronglySorted ascending l1 → StronglySorted ascending l2 →
  filter (λ x, val x = k) (merge_list l1 l2) =
  filter (λ x, val x = k) l2 ++ filter (λ x, val x = k) l1.
Proof.
  revert l2. induction l1 as [|x l1 IH1]; intros l2 H1 H2.
  { rewrite merge_list_nil_l. simpl. by rewrite app_nil_r. }
  induction l2 as [|y l2 IH2]; [by rewrite merge_list_nil_r|].
  rewrite merge_list_cons.
  apply StronglySorted_inv in H1 as [H1 Hx].
  pose proof H2 as [H2' Hy]%StronglySorted_inv.
  destruct (before x y) eqn:Hxy.
  - rewrite filter_cons, IH1 by done.
    rewrite (filter_cons _ x l1). case_decide as Hk; [|done].
    assert (filter (λ x0 : elem, val x0 = k) (y :: l2) = []) as ->; [|done].
    apply filter_none. (* nothing of the right list holds [k] *)
    apply bool_decide_eq_true in Hxy.
    assert (∀ z, ascending y z → val z ≠ k) as Hz.
    { unfold ascending. intros z Hyz Hzk. rewrite Hzk, <-Hk in Hyz.
      rewrite (strcmp_antisym (val x) (val y)) in Hyz. lia. }
    constructor; [apply Hz; unfold ascending; by rewrite strcmp_refl|].
    eapply Forall_impl; [exact Hy|]. auto.
  - rewrite filter_cons, IH2 by done.
    rewrite (filter_cons _ y l2). by case_decide.
Qed.

Lemma left_half_bounds n : (2 ≤ n → 1 ≤ left_half n < n)%nat.
Proof.
  unfold left_half. intros Hn.
  pose proof (Nat.div_mod_eq (n - 1) 2).
  pose proof (Nat.mod_upper_bound (n - 1) 2). lia.
Qed.

Lemma sort_list_perm fuel l : sort_list fuel l ≡ₚ l.
Proof.
  revert l. induction fuel as [|fuel IH]; intros [|x [|y l]]; try done.
  cbn [sort_list]. rewrite merge_list_perm, !IH. by rewrite take_drop.
Qed.

Lemma sort_list_length fuel l : length (sort_list fuel l) = length l.
Proof. by rewrite sort_list_perm. Qed.

Lemma sort_list_sorted fuel l :
  (length l ≤ S fuel)%nat → StronglySorted ascending (sort_list fuel l).
Proof.
  revert l. induction fuel as [|fuel IH]; intros [|x [|y l]] Hlen;
    try (simpl in Hlen; lia); try (repeat constructor; done).
  cbn [sort_list].
  pose proof (left_half_bounds (length (x :: y :: l))) as Hk.
  set (k := left_half _) in *. simpl in Hk, Hlen.
  apply merge_list_sorted; apply IH.
  - rewrite length_take. cbn [length]. lia.
  - rewrite length_drop. cbn [length]. lia.
Qed.

(** The sort emits the elements holding a given string in the reverse of
    their input order. *)
Lemma sort_list_filter k fuel l :
  (length l ≤ S fuel)%nat →
  filter (λ x, val x = k) (sort_list fuel l) =
  reverse (filter (λ x, val x = k) l).
Proof.
  revert l. induction fuel as [|fuel IH]; intros [|x [|y l]] Hlen;
    try (simpl in Hlen; lia); try done.
  - simpl. rewrite filter_cons, filter_nil. by case_decide.
  - simpl. rewrite filter_cons, filter_nil. by case_decide.
  - cbn [sort_list].
    pose proof (left_half_bounds (length (x :: y :: l))) as Hk.
    set (k' := left_half _) in *. simpl in Hk, Hlen.
    assert (length (take k' (x :: y :: l)) ≤ S fuel)%nat
      by (rewrite length_take; cbn [length]; lia).
    assert (length (drop k' (x :: y :: l)) ≤ S fuel)%nat
      by (rewrite length_drop; cbn [length]; lia).
    rewrite merge_list_filter by (by apply sort_list_sorted).
    rewrite !IH by done.
    rewrite <-reverse_app, <-filter_app. by rewrite take_drop.
Qed.

End SortList.

(** ** The loops of [mergesort] *)

Section Mergesort.
Implicit Types (m : mem) (p q r : ptr) (l : list elem) (x y : elem).

Lemma nodes_app l1 l2 : nodes (l1 ++ l2) = nodes l1 ++ nodes l2.
Proof. apply fmap_app. Qed.

Lemma nodes_perm l1 l2 : l1 ≡ₚ l2 → nodes l1 ≡ₚ nodes l2.
Proof. intros H. unfold nodes. by rewrite H. Qed.

Lemma lseg_lookup_end m p l k x :
  lseg m p l None → l !! k = Some x →
  load m (Some (node x)) = Some (Ele (Some (str x)) (node <$> l !! S k)) ∧
  load_str m (Some (str x)) = Some (val x).
Proof.
  intros Hl Hk. destruct (lseg_lookup _ _ _ _ _ _ Hl Hk) as [Hs He].
  split; [|done]. simpl. rewrite He. by destruct (l !! S k).
Qed.

Lemma lseg_first m p l : lseg m p l None → p = node <$> l !! 0%nat.
Proof. destruct l as [|x l]; simpl; [done|]. by intros [-> _]. Qed.

Lemma comparator_eq m p l k1 x p' l' k2 y :
  lseg m p l None → l !! k1 = Some x →
  lseg m p' l' None → l' !! k2 = Some y →
  comparator m (Some (node x)) (Some (node y)) =
    Some (strcmp (val x) (val y)).
Proof.
  intros Hl Hx Hl' Hy.
  destruct (lseg_lookup_end _ _ _ _ _ Hl Hx) as [Hex Hsx].
  destruct (lseg_lookup_end _ _ _ _ _ Hl' Hy) as [Hey Hsy].
  unfold comparator. rewrite Hex, Hey. simpl.
  simpl in Hsx, Hsy. by rewrite Hsx, Hsy.
Qed.

(** The scan stops with [slow] on node [(n - 1) / 2] of the [n] nodes. *)
Lemma split_loop_spec m p l :
  lseg m p l None →
  ∀ fuel k, (2 * k < length l)%nat → (length l ≤ 2 * k + 2 * fuel + 2)%nat →
  split_loop fuel m (node <$> l !! k) (node <$> l !! (2 * k)%nat) =
    Some (node <$> l !! ((length l - 1) / 2)%nat).
Proof.
  intros Hl. induction fuel as [|fuel IH]; intros k Hk Hfuel.
  all: destruct (lookup_lt_is_Some_2 l (2 * k)) as [xf Hxf]; [lia|].
  all: destruct (lseg_lookup_end _ _ _ _ _ Hl Hxf) as [Hef _].
  all: cbn [split_loop]; rewrite Hxf; cbn [fmap option_fmap option_map];
    rewrite Hef; cbn [mbind option_bind next].
  all: destruct (l !! S (2 * k)) as [x1|] eqn:Hx1; cbn [fmap option_fmap option_map].
  all: try (apply lookup_ge_None in Hx1;
            do 3 f_equal; assert (length l = 2 * k + 1)%nat as -> by lia;
            replace (2 * k + 1 - 1)%nat with (k * 2)%nat by lia;
            by rewrite Nat.div_mul).
  all: destruct (lseg_lookup_end _ _ _ _ _ Hl Hx1) as [Hef1 _];
    rewrite Hef1; cbn [mbind option_bind next].
  all: destruct (l !! S (S (2 * k))) as [x2|] eqn:Hx2; cbn [fmap option_fmap option_map].
  all: try (apply lookup_ge_None in Hx2; apply lookup_lt_Some in Hx1;
            do 3 f_equal; assert (length l = 2 * k + 2)%nat as -> by lia;
            replace (2 * k + 2 - 1)%nat with (1 + k * 2)%nat by lia;
            rewrite Nat.div_add by done; done).
  - apply lookup_lt_Some in Hx2. lia.
  - pose proof (lookup_lt_Some _ _ _ Hx2).
    destruct (lookup_lt_is_Some_2 l k) as [xs Hxs]; [lia|].
    destruct (lseg_lookup_end _ _ _ _ _ Hl Hxs) as [Hes _].
    rewrite Hxs. cbn [fmap option_fmap option_map].
    rewrite Hes. cbn [mbind option_bind next].
    specialize (IH (S k) ltac:(lia) ltac:(lia)).
    assert (l !! (2 * S k)%nat = Some x2) as Hx2'
      by (rewrite <-Hx2; f_equal; lia).
    rewrite Hx2' in IH. exact IH.
Qed.

End Mergesort.

Section MergeLoop.
Implicit Types (m : mem) (p q r : ptr) (l : list elem) (x y : elem).

Lemma merge_take_spec m start merge done p x rest :
  merged m start merge done → lseg m p (x :: rest) None →
  NoDup (nodes (done ++ x :: rest)) →
  ∃ m' start' next_,
    merge_take m start merge p = Some (m', start', next_) ∧
    p = Some (node x) ∧
    lseg m' next_ rest None ∧
    merged m' start' p (done ++ [x]) ∧
    relinked (nodes (done ++ [x])) m m'.
Proof.
  intros Hm Hp Hnd. pose proof Hp as (-> & Hs & n & He & Hrest).
  rewrite nodes_app in Hnd. apply NoDup_app in Hnd as (Hnd1 & Hnd2 & Hnd3).
  change (nodes (x :: rest)) with (node x :: nodes rest) in *.
  apply NoDup_cons in Hnd3 as [Hx Hnd3].
  assert (node x ∉ nodes done) as Hxd.
  { intros H. apply (Hnd2 _ H). left. }
  unfold merge_take. cbn [load mbind option_bind]. rewrite He.
  cbn [mbind option_bind next].
  destruct (list.last done) as [y|] eqn:Hlast; unfold merged in Hm;
    rewrite Hlast in Hm.
  - destruct Hm as [-> Hdone].
    apply last_Some in Hlast as [d ->].
    rewrite nodes_app in Hnd1, Hxd, Hnd2.
    apply NoDup_app in Hnd1 as (Hd1 & Hd2 & _).
    assert (node y ∉ nodes d) as Hyd.
    { intros H. apply (Hd2 _ H). left. }
    assert (node x ≠ node y) as Hxy.
    { intros Heq. apply Hxd. rewrite Heq. apply elem_of_app. right. left. }
    destruct (store_next_lseg m [] y None (Some (node y)) (Some (node x)))
      as [m1 Hm1].
    { apply lseg_snoc in Hdone as (r & _ & _ & Hsy & Hey). simpl. eauto 10. }
    rewrite Hm1. cbn [mbind option_bind].
    pose proof (relinked_store_next _ _ _ _ Hm1) as Hrel1.
    assert (eles m1 !! node x = Some (Ele (Some (str x)) n)) as He1.
    { rewrite (relinked_other _ _ _ Hrel1); [done|].
      intros [?|[]%elem_of_nil]%elem_of_cons. done. }
    rewrite (store_next_eq _ _ _ None He1). cbn [mbind option_bind value].
    set (m2 := with_eles m1 _).
    assert (relinked [node x] m1 m2) as Hrel2.
    { apply (relinked_store_next m1 (node x) None).
      by rewrite (store_next_eq _ _ _ None He1). }
    assert (relinked (nodes ((d ++ [y]) ++ [x])) m m2) as Hrel.
    { eapply relinked_trans; (eapply relinked_mono; [|done]).
      - intros a [->|[]%elem_of_nil]%elem_of_cons.
        rewrite !nodes_app. apply elem_of_app. left.
        apply elem_of_app. right. left.
      - intros a [->|[]%elem_of_nil]%elem_of_cons.
        rewrite !nodes_app. apply elem_of_app. right. left. }
    eexists _, _, _. split_and!; [done|done| | |done].
    + eapply lseg_relinked; [exact Hrel| |done].
      intros a Ha Ha'. rewrite !nodes_app in Ha'.
      apply elem_of_app in Ha' as [Ha'|Ha'].
      * apply (Hnd2 a Ha'). by right.
      * apply list_elem_of_fmap in Ha' as (z & -> & ->%list_elem_of_singleton).
        done.
    + unfold merged. rewrite last_snoc. split; [done|].
      apply lseg_snoc. exists (Some (node x)). split_and!; [|done|..].
      * pose proof (lseg_store_last _ _ _ _ _ _ _ Hdone Hyd Hm1) as H1.
        eapply lseg_relinked; [exact Hrel2| |done].
        intros a Ha [->|[]%elem_of_nil]%elem_of_cons.
        rewrite nodes_app in Ha. done.
      * pose proof (relinked_strs _ _ _ Hrel). congruence.
      * subst m2. cbn [eles with_eles]. by rewrite lookup_insert_eq.
  - subst merge. apply last_None in Hlast as ->.
    cbn [mbind option_bind].
    rewrite (store_next_eq _ _ _ None He). cbn [mbind option_bind value].
    set (m2 := with_eles m _).
    assert (relinked [node x] m m2) as Hrel.
    { apply (relinked_store_next m (node x) None).
      by rewrite (store_next_eq _ _ _ None He). }
    eexists _, _, _. split_and!; [done|done| | |done].
    + eapply lseg_relinked; [exact Hrel| |done].
      intros a Ha [->|[]%elem_of_nil]%elem_of_cons. done.
    + unfold merged. simpl. split_and!; [done|done|..].
      * pose proof (relinked_strs _ _ _ Hrel). congruence.
      * exists None. split; [|done].
        subst m2. cbn [eles with_eles]. by rewrite lookup_insert_eq.
Qed.

End MergeLoop.

Lemma nodes_cons x l : nodes (x :: l) = node x :: nodes l.
Proof. done. Qed.

Lemma nodes_nil : nodes [] = [].
Proof. done. Qed.

(** Membership in the node list of a compound list. *)
Ltac nodes_simpl :=
  repeat first
    [ rewrite nodes_app | rewrite nodes_cons | rewrite nodes_nil
    | rewrite elem_of_app | rewrite elem_of_cons | rewrite elem_of_nil
    | rewrite app_nil_r ].
Ltac nodes_solver := nodes_simpl; tauto.

Lemma nodes_NoDup_3 (A B C : list elem) a :
  NoDup (nodes (A ++ B ++ C)) →
  (a ∈ nodes A → a ∈ nodes B → False) ∧
  (a ∈ nodes A → a ∈ nodes C → False) ∧
  (a ∈ nodes B → a ∈ nodes C → False).
Proof.
  rewrite !nodes_app, !NoDup_app. intros (HA & HABC & HB & HBC & HC).
  split_and!.
  - intros Ha Hb. apply (HABC a Ha). apply elem_of_app. by left.
  - intros Ha Hc. apply (HABC a Ha). apply elem_of_app. by right.
  - intros Hb Hc. by apply (HBC a Hb).
Qed.

Lemma nodes_NoDup_drop_mid (A B C : list elem) :
  NoDup (nodes (A ++ B ++ C)) → NoDup (nodes (A ++ C)).
Proof.
  rewrite !nodes_app, !NoDup_app. intros (HA & HABC & HB & HBC & HC).
  split_and!; [done| |done].
  intros a Ha Ha'. apply (HABC a Ha). apply elem_of_app. by right.
Qed.

Lemma nodes_NoDup_drop_last (A B C : list elem) :
  NoDup (nodes (A ++ B ++ C)) → NoDup (nodes (A ++ B)).
Proof.
  rewrite !nodes_app, !NoDup_app. intros (HA & HABC & HB & HBC & HC).
  split_and!; [done| |done].
  intros a Ha Ha'. apply (HABC a Ha). apply elem_of_app. by left.
Qed.

(** [a] cannot occur in two of the three parts of a list without
    repetition. *)
Ltac nodes_disjoint a H :=
  let HH := fresh in
  pose proof (nodes_NoDup_3 _ _ _ a H) as HH; revert HH;
  repeat match goal with Hm : a ∈ _ |- _ => revert Hm end;
  unfold not; nodes_simpl; tauto.

Section MergeLoopSpec.
Implicit Types (m : mem) (p q r : ptr) (l : list elem) (x y : elem).

Lemma merge_loop_spec fuel : ∀ m start merge left right done L R,
  merged m start merge done →
  lseg m left L None → lseg m right R None →
  NoDup (nodes (done ++ L ++ R)) →
  (length L + length R ≤ fuel)%nat →
  done ++ L ++ R ≠ [] →
  ∃ m' p, merge_loop fuel comparator m start merge left right = Some (m', p) ∧
          lseg m' p (done ++ merge_list L R) None ∧
          relinked (nodes (done ++ L ++ R)) m m'.
Proof.
  induction fuel as [|fuel IH];
    intros m start merge left right done L R Hm HL HR Hnd Hfuel Hne.
  - destruct L, R; simpl in Hfuel; try lia.
    simpl in HL, HR. subst left right. rewrite app_nil_r in Hne.
    exists m, start. split_and!; [done| |apply relinked_refl].
    rewrite merge_list_nil_l, app_nil_r. unfold merged in Hm.
    destruct (list.last done) eqn:Hlast; [by destruct Hm|].
    by apply last_None in Hlast.
  - destruct L as [|x L], R as [|y R].
    + simpl in HL, HR. subst left right. rewrite app_nil_r in Hne.
      exists m, start. split_and!; [done| |apply relinked_refl].
      rewrite merge_list_nil_l, app_nil_r. unfold merged in Hm.
      destruct (list.last done) eqn:Hlast; [by destruct Hm|].
      by apply last_None in Hlast.
    + (* only the right chain is left *)
      simpl in HL. subst left.
      destruct (merge_take_spec m start merge done right y R)
        as (m' & start' & next_ & Htake & -> & Hnext & Hm' & Hrel);
        [done..|].
      cbn [merge_loop mbind option_bind]. rewrite Htake.
      cbn [mbind option_bind].
      destruct (IH m' start' (Some (node y)) None next_ (done ++ [y]) [] R)
        as (m'' & p & Hrun & Hseg & Hrel'); [done|done|done| | | |].
      * by rewrite <-app_assoc.
      * simpl in *. lia.
      * by destruct done.
      * exists m'', p. rewrite Hrun. split_and!; [done| |].
        -- rewrite merge_list_nil_l in *. by rewrite <-app_assoc in Hseg.
        -- eapply relinked_trans; [|by rewrite <-app_assoc in Hrel'].
           eapply relinked_mono; [|done]. intros a. nodes_solver.
    + (* only the left chain is left *)
      simpl in HR. subst right.
      destruct (merge_take_spec m start merge done left x L)
        as (m' & start' & next_ & Htake & -> & Hnext & Hm' & Hrel);
        [done|done|by rewrite app_nil_r in Hnd|].
      cbn [merge_loop mbind option_bind]. rewrite Htake.
      cbn [mbind option_bind].
      destruct (IH m' start' (Some (node x)) next_ None (done ++ [x]) L [])
        as (m'' & p & Hrun & Hseg & Hrel'); [done|done|done| | | |].
      * by rewrite <-app_assoc.
      * simpl in *. lia.
      * by destruct done.
      * exists m'', p. rewrite Hrun. split_and!; [done| |].
        -- rewrite merge_list_nil_r in *. by rewrite <-app_assoc in Hseg.
        -- eapply relinked_trans; [|by rewrite <-app_assoc in Hrel'].
           eapply relinked_mono; [|done]. intros a. nodes_solver.
    + (* both chains are non-empty: the comparison decides *)
      pose proof HL as [-> _]. pose proof HR as [-> _].
      cbn [merge_loop].
      rewrite (comparator_eq m _ (x :: L) 0 x _ (y :: R) 0 y) by done.
      cbn [mbind option_bind]. rewrite merge_list_cons.
      fold (before x y). destruct (before x y) eqn:Hxy.
      * destruct (merge_take_spec m start merge done (Some (node x)) x L)
          as (m' & start' & next_ & Htake & _ & Hnext & Hm' & Hrel);
          [done|done| |].
        { by apply (nodes_NoDup_drop_last done (x :: L) (y :: R)). }
        rewrite Htake. cbn [mbind option_bind].
        destruct (IH m' start' (Some (node x)) next_ (Some (node y))
                    (done ++ [x]) L (y :: R))
          as (m'' & p & Hrun & Hseg & Hrel'); [done|done| | | | |].
        -- eapply lseg_relinked; [exact Hrel| |done].
           intros a Ha. nodes_disjoint a Hnd.
        -- by rewrite <-app_assoc.
        -- simpl in *. lia.
        -- by destruct done.
        -- exists m'', p. rewrite Hrun. split_and!; [done| |].
           ++ by rewrite <-app_assoc in Hseg.
           ++ eapply relinked_trans; [|by rewrite <-app_assoc in Hrel'].
              eapply relinked_mono; [|done]. intros a. nodes_solver.
      * destruct (merge_take_spec m start merge done (Some (node y)) y R)
          as (m' & start' & next_ & Htake & _ & Hnext & Hm' & Hrel);
          [done|done| |].
        { by apply (nodes_NoDup_drop_mid done (x :: L) (y :: R)). }
        rewrite Htake. cbn [mbind option_bind].
        assert ((done ++ [y]) ++ (x :: L) ++ R ≡ₚ done ++ (x :: L) ++ y :: R)
          as Hperm.
        { rewrite <-app_assoc. apply Permutation_app_head.
          apply (Permutation_middle (x :: L) R y). }
        destruct (IH m' start' (Some (node y)) (Some (node x)) next_
                    (done ++ [y]) (x :: L) R)
          as (m'' & p & Hrun & Hseg & Hrel'); [done| |done| | | |].
        -- eapply lseg_relinked; [exact Hrel| |done].
           intros a Ha. nodes_disjoint a Hnd.
        -- by rewrite (nodes_perm _ _ Hperm).
        -- simpl in *. lia.
        -- by destruct done.
        -- exists m'', p. rewrite Hrun. split_and!; [done| |].
           ++ by rewrite <-app_assoc in Hseg.
           ++ eapply relinked_trans.
              ** eapply relinked_mono; [|exact Hrel]. intros a. nodes_solver.
              ** eapply relinked_mono; [|exact Hrel']. intros a. nodes_solver.
Qed.

End MergeLoopSpec.

Section MergesortSpec.
Implicit Types (m : mem) (p q r : ptr) (l : list elem) (x y : elem).

Lemma find_end_spec m l : ∀ fuel p x,
  lseg m p l None → last l = Some x → (length l ≤ S fuel)%nat →
  find_end fuel m p = Some (Some (node x)).
Proof.
  induction l as [|y l IH]; intros fuel p x Hl Hlast Hfuel; [done|].
  pose proof Hl as (-> & Hs & n & He & Hl').
  destruct l as [|z l].
  - simpl in Hl'. subst n. simplify_eq/=.
    destruct fuel; simpl; by rewrite He.
  - pose proof Hl' as [-> _].
    destruct fuel as [|fuel]; [simpl in Hfuel; lia|].
    cbn [find_end load mbind option_bind]. rewrite He. cbn [next].
    apply IH; [done| |simpl in *; lia]. done.
Qed.

Lemma nodes_sort_list fuel l : nodes (sort_list fuel l) ≡ₚ nodes l.
Proof. apply nodes_perm, sort_list_perm. Qed.

Lemma mergesort_spec fuel : ∀ m start l,
  lseg m start l None → NoDup (nodes l) → (length l < fuel)%nat →
  ∃ m' p, mergesort fuel comparator m start = Some (m', p) ∧
          lseg m' p (sort_list fuel l) None ∧
          relinked (nodes l) m m'.
Proof.
  induction fuel as [|fuel IH]; intros m start l Hl Hnd Hfuel; [lia|].
  destruct l as [|x [|y l]].
  - simpl in Hl. subst start. exists m, None.
    split_and!; [done..|apply relinked_refl].
  - pose proof Hl as (-> & Hs & n & He & ->). exists m, (Some (node x)).
    split_and!; [|done|apply relinked_refl].
    cbn [mergesort load mbind option_bind]. by rewrite He.
  - pose proof Hl as (-> & Hs & n & He & -> & _).
    cbn [mergesort load mbind option_bind]. rewrite He. cbn [next].
    set (L := x :: y :: l) in *.
    pose proof (left_half_bounds (length L) ltac:(simpl; lia)) as Hk.
    pose proof (split_loop_spec m _ L Hl fuel 0 ltac:(simpl; lia) ltac:(lia))
      as Hsplit.
    change (node <$> L !! 0%nat) with (Some (node x)) in Hsplit.
    change (node <$> L !! (2 * 0)%nat) with (Some (node x)) in Hsplit.
    rewrite Hsplit. cbn [mbind option_bind].
    set (k0 := ((length L - 1) / 2)%nat) in *.
    assert (left_half (length L) = S k0) as Hk0 by done.
    rewrite Hk0 in Hk.
    destruct (lookup_lt_is_Some_2 L k0) as [xs Hxs]; [lia|].
    destruct (lseg_lookup_end _ _ _ _ _ Hl Hxs) as [Hes _].
    rewrite Hxs. cbn [fmap option_fmap option_map].
    rewrite Hes. cbn [mbind option_bind next].
    simpl in Hes.
    rewrite (store_next_eq _ _ _ None Hes). cbn [mbind option_bind value].
    set (m1 := with_eles m _).
    assert (relinked [node xs] m m1) as Hrel1.
    { apply (relinked_store_next m (node xs) None).
      by rewrite (store_next_eq _ _ _ None Hes). }
    (* the two halves *)
    assert (take (S k0) L = take k0 L ++ [xs]) as Htake by (by apply take_S_r).
    pose proof Hl as Hl2. rewrite <-(take_drop (S k0) L) in Hl2.
    apply lseg_app in Hl2 as (r & Hleft & Hright).
    pose proof (lseg_first _ _ _ Hright) as Hr.
    rewrite lookup_drop, Nat.add_0_r in Hr. subst r.
    pose proof Hnd as Hnd2. rewrite <-(take_drop (S k0) L) in Hnd2.
    assert (lseg m1 (Some (node x)) (take (S k0) L) None) as Hleft1.
    { rewrite Htake in *. eapply lseg_store_last; [done| |].
      - rewrite nodes_app in Hnd2. apply NoDup_app in Hnd2 as [Hnd2 _].
        rewrite nodes_app in Hnd2. apply NoDup_app in Hnd2 as (_ & Hnd2 & _).
        intros Hin. apply (Hnd2 _ Hin). left.
      - by rewrite (store_next_eq _ _ _ None Hes). }
    assert (lseg m1 (node <$> L !! S k0) (drop (S k0) L) None) as Hright1.
    { eapply lseg_relinked; [exact Hrel1| |done].
      intros a Ha [->|[]%elem_of_nil]%elem_of_cons.
      rewrite nodes_app in Hnd2. apply NoDup_app in Hnd2 as (_ & Hnd2 & _).
      apply (Hnd2 (node xs)); [|done].
      rewrite Htake, nodes_app. apply elem_of_app. right. left. }
    assert (length (take (S k0) L) = S k0) as Hlen1
      by (rewrite length_take; lia).
    assert (length (drop (S k0) L) = length L - S k0)%nat as Hlen2
      by (by rewrite length_drop).
    pose proof Hnd2 as Hnd3. rewrite nodes_app in Hnd3.
    apply NoDup_app in Hnd3 as (HndL & Hdisj & HndR).
    (* the recursive calls *)
    destruct (IH m1 (Some (node x)) (take (S k0) L))
      as (m2 & left' & Hrun1 & Hseg1 & Hrel2); [done|done|lia|].
    rewrite Hrun1. cbn [mbind option_bind].
    destruct (IH m2 (node <$> L !! S k0) (drop (S k0) L))
      as (m3 & right' & Hrun2 & Hseg2 & Hrel3); [|done|lia|].
    { eapply lseg_relinked; [exact Hrel2| |done].
      intros a Ha Ha'. by apply (Hdisj a). }
    rewrite Hrun2. cbn [mbind option_bind].
    (* the merge *)
    destruct (merge_loop_spec fuel m3 (Some (node x)) None left' right' []
                (sort_list fuel (take (S k0) L))
                (sort_list fuel (drop (S k0) L)))
      as (m4 & p & Hrun3 & Hseg3 & Hrel4).
    + done.
    + eapply lseg_relinked; [exact Hrel3| |done].
      intros a Ha Ha'. rewrite nodes_sort_list in Ha. by apply (Hdisj a).
    + done.
    + simpl. rewrite nodes_app, !nodes_sort_list. by rewrite <-nodes_app.
    + rewrite !sort_list_length. lia.
    + simpl. intros Hnil%(f_equal length).
      rewrite length_app, !sort_list_length in Hnil. simpl in Hnil. lia.
    + exists m4, p. split_and!; [done| |].
      * subst L. cbn [sort_list]. fold (left_half (length (x :: y :: l))).
        rewrite Hk0. exact Hseg3.
      * assert (∀ a, a ∈ nodes (take (S k0) L) ∨ a ∈ nodes (drop (S k0) L) →
                     a ∈ nodes L) as Hsub.
        { intros a. rewrite <-elem_of_app, <-nodes_app. by rewrite take_drop. }
        eapply relinked_trans; [|eapply relinked_trans; [|eapply relinked_trans]].
        -- eapply relinked_mono; [|exact Hrel1].
           intros a [->|[]%elem_of_nil]%elem_of_cons.
           unfold nodes. apply list_elem_of_fmap. exists xs. split; [done|].
           by eapply list_elem_of_lookup_2.
        -- eapply relinked_mono; [|exact Hrel2]. intros a Ha. apply Hsub. by left.
        -- eapply relinked_mono; [|exact Hrel3]. intros a Ha. apply Hsub. by right.
        -- eapply relinked_mono; [|exact Hrel4]. intros a. simpl.
           rewrite nodes_app, elem_of_app, !nodes_sort_list. apply Hsub.
Qed.

End MergesortSpec.

(** ** Allocation *)

Section Alloc.
Implicit Types (m : mem) (p : ptr) (l : list elem) (x : elem).

Lemma fresh_addr_eles m : eles m !! fresh_addr m = None.
Proof.
  apply not_elem_of_dom. unfold fresh_addr.
  pose proof (is_fresh (dom (eles m) ∪ dom (strs m))) as H.
  intros Hin. apply H. apply elem_of_union. by left.
Qed.

Lemma fresh_addr_strs m : strs m !! fresh_addr m = None.
Proof.
  apply not_elem_of_dom. unfold fresh_addr.
  pose proof (is_fresh (dom (eles m) ∪ dom (strs m))) as H.
  intros Hin. apply H. apply elem_of_union. by right.
Qed.

Lemma mem_eta m : Mem (eles m) (strs m) = m.
Proof. by destruct m. Qed.

(** A failed allocation leaves the memory and the queue as they were: the
    node that was allocated before the string is freed again. *)
Lemma q_insert_head_fail node_ok str_ok m q s :
  node_ok && str_ok = false →
  q_insert_head node_ok str_ok m q s = Some (m, q, false).
Proof.
  intros Hok. destruct q as [q0|]; [|done].
  destruct node_ok; [|done]. simpl in Hok. subst str_ok.
  unfold q_insert_head, malloc_ele, malloc_str, store_value, free_ele.
  cbn. rewrite lookup_insert_eq. cbn. rewrite lookup_insert_eq.
  unfold with_eles. cbn. rewrite insert_insert_eq.
  rewrite delete_insert_eq, delete_id by apply fresh_addr_eles.
  by rewrite mem_eta.
Qed.

Lemma q_insert_tail_fail node_ok str_ok m q s :
  node_ok && str_ok = false →
  q_insert_tail node_ok str_ok m q s = Some (m, q, false).
Proof.
  intros Hok. destruct q as [q0|]; [|done].
  destruct node_ok; [|done]. simpl in Hok. subst str_ok.
  unfold q_insert_tail, malloc_ele, malloc_str, store_value, free_ele.
  cbn. rewrite lookup_insert_eq. cbn. rewrite lookup_insert_eq.
  unfold with_eles. cbn. rewrite insert_insert_eq.
  rewrite delete_insert_eq, delete_id by apply fresh_addr_eles.
  by rewrite mem_eta.
Qed.

End Alloc.

(** ** Insertion *)

Section Insert.
Implicit Types (m : mem) (p : ptr) (q : queue_t) (l : list elem) (x : elem).

(** Blocks that were not allocated before are not part of any chain. *)
Lemma lseg_alloc_frame m m' p l r a v :
  lseg m p l r → eles m !! a = None → strs m !! v = None →
  (∀ b, b ≠ a → eles m' !! b = eles m !! b) →
  (∀ b, b ≠ v → strs m' !! b = strs m !! b) →
  lseg m' p l r.
Proof.
  intros Hl Ha Hv He Hs. eapply lseg_frame; [done|].
  intros x [k Hk]%list_elem_of_lookup.
  destruct (lseg_lookup _ _ _ _ _ _ Hl Hk) as [Hsx Hex].
  split; [apply He|apply Hs]; congruence.
Qed.

Lemma chain_fresh_node m q l :
  chain_rep m q l → fresh_addr m ∉ nodes l.
Proof.
  intros [Hl _ _ _ _] Hin.
  destruct (lseg_nodes_dom _ _ _ _ _ Hl Hin) as [e He].
  by rewrite fresh_addr_eles in He.
Qed.

Lemma chain_strs_dom m q l v :
  chain_rep m q l → v ∈ str <$> l → is_Some (strs m !! v).
Proof.
  intros [Hl _ _ _ _] (x & -> & [k Hk]%list_elem_of_lookup)%list_elem_of_fmap.
  destruct (lseg_lookup _ _ _ _ _ _ Hl Hk) as [-> _]. eauto.
Qed.

Lemma to_int_strlen s : strlen s ≤ INT_MAX → to_int (strlen s) = strlen s.
Proof. intros. apply to_int_id. unfold strlen, INT_MIN in *. lia. Qed.

Lemma take_strlen s : take (Z.to_nat (strlen s)) s = s.
Proof. unfold strlen. rewrite Nat2Z.id. by apply take_ge. Qed.

Lemma inserted_elem_fresh m s :
  eles m !! node (inserted_elem m s) = None ∧
  strs m !! str (inserted_elem m s) = None.
Proof.
  split; [apply fresh_addr_eles|].
  apply (fresh_addr_strs (with_eles m _)).
Qed.

Lemma inserted_mem_lseg m s n p l r :
  lseg m p l r → lseg (inserted_mem m s n) p l r.
Proof.
  intros Hl. destruct (inserted_elem_fresh m s) as [Ha Hv].
  eapply lseg_alloc_frame; [done..| |]; intros b Hb; simpl;
    by rewrite lookup_insert_ne.
Qed.

Lemma inserted_mem_elem m s n r :
  lseg (inserted_mem m s n) n [] r →
  lseg (inserted_mem m s n) (Some (node (inserted_elem m s)))
       [inserted_elem m s] r.
Proof.
  simpl. intros ->. split_and!; [done|by rewrite lookup_insert_eq|].
  exists r. by rewrite lookup_insert_eq.
Qed.

Lemma q_insert_head_eq m q s :
  strlen s ≤ INT_MAX →
  q_insert_head true true m (Some q) s =
    Some (inserted_mem m s (head q),
          Some (Queue (Some (node (inserted_elem m s)))
                      (match head q with
                       | None => Some (node (inserted_elem m s))
                       | Some _ => last_element q
                       end)
                      (to_int (count q + 1))), true).
Proof.
  intros Hs. unfold q_insert_head, malloc_ele, malloc_str, store_value,
    copy_string, store_next.
  rewrite (to_int_strlen s Hs), take_strlen.
  cbn. rewrite lookup_insert_eq. cbn. rewrite lookup_insert_eq. cbn.
  rewrite bool_decide_true by (unfold strlen; lia).
  cbn. rewrite lookup_insert_eq. cbn. rewrite lookup_insert_eq. cbn.
  unfold inserted_mem, with_eles, with_strs. cbn.
  rewrite !insert_insert_eq. by destruct (head q).
Qed.

Lemma q_insert_head_chain m q l s :
  chain_rep m q l → strlen s ≤ INT_MAX →
  ∃ m' q',
    q_insert_head true true m (Some q) s = Some (m', Some q', true) ∧
    chain_rep m' q' (inserted_elem m s :: l) ∧
    count q' = to_int (count q + 1).
Proof.
  intros Hrep Hs. rewrite (q_insert_head_eq m q s Hs).
  eexists _, _. split; [done|]. split; [|done].
  pose proof Hrep as [Hl Hn Hst Hlast Hv].
  destruct (inserted_elem_fresh m s) as [Ha Hb].
  split; cbn [head last_element].
  - cbn [lseg]. split_and!; [done|simpl; by rewrite lookup_insert_eq|].
    exists (head q). split; [simpl; by rewrite lookup_insert_eq|].
    by apply inserted_mem_lseg.
  - rewrite nodes_cons. apply NoDup_cons. split; [|done].
    by apply (chain_fresh_node m q).
  - rewrite fmap_cons. apply NoDup_cons. split; [|done].
    intros Hin. destruct (chain_strs_dom _ _ _ _ Hrep Hin) as [? Heq].
    by rewrite Hb in Heq.
  - destruct l as [|y l].
    + simpl in Hl. by rewrite Hl.
    + destruct Hl as [-> _]. rewrite Hlast. done.
  - constructor; done.
Qed.

Lemma q_insert_tail_eq m q s :
  strlen s ≤ INT_MAX →
  q_insert_tail true true m (Some q) s =
    let newh := Some (node (inserted_elem m s)) in
    let m5 := inserted_mem m s None in
    '(m6, q1) ←
      match last_element q with
      | None => Some (m5, Queue newh newh (count q))
      | Some _ =>
          m' ← store_next m5 (last_element q) newh;
          Some (m', Queue (head q) newh (count q))
      end;
    Some (m6, Some (Queue (head q1) (last_element q1)
                          (to_int (count q1 + 1))), true).
Proof.
  intros Hs. unfold q_insert_tail, malloc_ele, malloc_str, store_value,
    copy_string.
  rewrite (to_int_strlen s Hs), take_strlen.
  cbn. rewrite lookup_insert_eq. cbn. rewrite lookup_insert_eq. cbn.
  rewrite bool_decide_true by (unfold strlen; lia).
  unfold store_next at 1.
  cbn. rewrite lookup_insert_eq. cbn.
  unfold inserted_mem, with_eles, with_strs. cbn.
  by rewrite !insert_insert_eq.
Qed.

Lemma q_insert_tail_chain m q l s :
  chain_rep m q l → strlen s ≤ INT_MAX →
  ∃ m' q',
    q_insert_tail true true m (Some q) s = Some (m', Some q', true) ∧
    chain_rep m' q' (l ++ [inserted_elem m s]) ∧
    count q' = to_int (count q + 1).
Proof.
  intros Hrep Hs. rewrite (q_insert_tail_eq m q s Hs). cbn zeta.
  pose proof Hrep as [Hl Hn Hst Hlast Hv].
  destruct (inserted_elem_fresh m s) as [Ha Hb].
  set (x := inserted_elem m s) in *. set (m5 := inserted_mem m s None).
  assert (Hx : lseg m5 (Some (node x)) [x] None).
  { by apply inserted_mem_elem. }
  assert (NoDup (nodes (l ++ [x]))) as Hn'.
  { rewrite nodes_app. apply NoDup_app. split_and!; [done| |].
    - intros a Hin [->|[]%elem_of_nil]%elem_of_cons.
      by apply (chain_fresh_node m q l).
    - apply NoDup_singleton. }
  assert (NoDup (str <$> l ++ [x])) as Hst'.
  { rewrite fmap_app. apply NoDup_app. split_and!; [done| |].
    - intros a Hin [->|[]%elem_of_nil]%elem_of_cons.
      destruct (chain_strs_dom _ _ _ _ Hrep Hin) as [? Heq].
      by rewrite Hb in Heq.
    - apply NoDup_singleton. }
  assert (Forall (λ y, strlen (val y) ≤ INT_MAX) (l ++ [x])) as Hv'.
  { apply Forall_app. split; [done|]. by constructor. }
  destruct (last_element q) as [t|] eqn:Ht.
  - (* a non-empty queue: the last node is redirected *)
    symmetry in Hlast. apply fmap_Some in Hlast as (y & Hy & ->).
    apply last_Some in Hy as [d ->].
    pose proof (inserted_mem_lseg m s None _ _ _ Hl) as Hl5. fold m5 in Hl5.
    assert (node y ∉ nodes d) as Hyd.
    { rewrite nodes_app in Hn. apply NoDup_app in Hn as (_ & Hn & _).
      intros Hin. apply (Hn _ Hin). left. }
    destruct (store_next_lseg m5 [] y None (Some (node y)) (Some (node x)))
      as [m6 Hm6].
    { apply lseg_snoc in Hl5 as (r & _ & _ & Hsy & Hey). simpl. eauto 10. }
    rewrite Hm6. cbn. eexists _, _. split; [done|]. split; [|done].
    pose proof (relinked_store_next _ _ _ _ Hm6) as Hrel.
    split; cbn [head last_element]; [|done|done| |done].
    + apply lseg_app. exists (Some (node x)). split.
      * eapply lseg_store_last; done.
      * eapply lseg_relinked; [exact Hrel| |exact Hx].
        intros a [->|[]%elem_of_nil]%elem_of_cons
                 [Heq|[]%elem_of_nil]%elem_of_cons.
        assert (node x ∈ nodes (d ++ [y])) as Hin.
        { rewrite Heq, nodes_app. apply elem_of_app. right. left. }
        exact (chain_fresh_node m q _ Hrep Hin).
    + by rewrite last_snoc.
  - (* an empty queue *)
    symmetry in Hlast. apply fmap_None, last_None in Hlast. subst l.
    cbn. eexists _, _. split; [done|]. split; [|done].
    split; cbn [head last_element]; done.
Qed.

End Insert.

(** ** Removal *)

Section Remove.
Implicit Types (m : mem) (p : ptr) (q : queue_t) (l : list elem) (x : elem).

Lemma real_bufsize v bufsize :
  strlen v ≤ INT_MAX → 0 ≤ bufsize ≤ SIZE_MAX →
  to_int (if bool_decide (strlen v < to_size_t (bufsize - 1))
          then strlen v else to_size_t (bufsize - 1)) =
  copied (strlen v) bufsize.
Proof.
  intros Hv Hb. unfold copied.
  assert (0 ≤ strlen v) by (unfold strlen; lia).
  destruct (decide (bufsize = 0)) as [->|Hne].
  - rewrite to_size_t_minus_one, (bool_decide_true (0 = 0)) by done.
    rewrite bool_decide_true by (unfold INT_MAX, SIZE_MAX in *; lia).
    apply to_int_id. unfold INT_MIN. lia.
  - rewrite to_size_t_id, (bool_decide_false (bufsize = 0)) by lia.
    unfold INT_MIN, INT_MAX in *.
    case_bool_decide; rewrite to_int_id; unfold INT_MIN, INT_MAX; lia.
Qed.

Lemma copy_out_eq v n :
  0 ≤ n ≤ strlen v →
  copy_out v n = Some (take (Z.to_nat n) v ++ ["000"%byte]).
Proof.
  intros Hn. unfold copy_out. rewrite bool_decide_true by lia.
  rewrite take_app_le; [done|]. unfold strlen in Hn. lia.
Qed.

Lemma copied_bounds len bufsize :
  0 ≤ len → 0 ≤ bufsize → 0 ≤ copied len bufsize ≤ len.
Proof. unfold copied. intros. case_bool_decide; lia. Qed.

Lemma q_remove_head_eq m q x n sp bufsize :
  head q = Some (node x) →
  eles m !! node x = Some (Ele (Some (str x)) n) →
  strs m !! str x = Some (val x) →
  strlen (val x) ≤ INT_MAX → 0 ≤ bufsize ≤ SIZE_MAX →
  q_remove_head m (Some q) sp bufsize =
    Some (removed_mem m x, Some (removed_queue q n),
          match sp with
          | None => None
          | Some _ =>
              Some (take (Z.to_nat (copied (strlen (val x)) bufsize))
                         (val x) ++ ["000"%byte])
          end, true).
Proof.
  intros Hh He Hs Hvx Hb.
  assert (0 ≤ strlen (val x)) by (unfold strlen; lia).
  unfold q_remove_head. rewrite Hh.
  destruct sp as [b|]; cbn [load mbind option_bind]; rewrite He;
    cbn [mbind option_bind value next load_str free_str free_ele];
    rewrite Hs; cbn [mbind option_bind].
  - rewrite (real_bufsize _ _ Hvx Hb).
    rewrite copy_out_eq by (apply copied_bounds; lia).
    cbn [mbind option_bind with_strs eles]. rewrite He.
    by destruct n.
  - cbn [with_strs eles]. rewrite He. by destruct n.
Qed.

Lemma q_remove_head_chain m q x l sp bufsize :
  chain_rep m q (x :: l) → 0 ≤ bufsize ≤ SIZE_MAX →
  ∃ m' q',
    q_remove_head m (Some q) sp bufsize =
      Some (m', Some q',
            match sp with
            | None => None
            | Some _ =>
                Some (take (Z.to_nat (copied (strlen (val x)) bufsize))
                           (val x) ++ ["000"%byte])
            end, true) ∧
    chain_rep m' q' l ∧ count q' = to_int (count q - 1).
Proof.
  intros [Hl Hn Hst Hlast Hv] Hb.
  pose proof Hl as (Hh & Hs & n & He & Hl').
  apply Forall_cons in Hv as [Hvx Hv].
  rewrite (q_remove_head_eq m q x n sp bufsize) by done.
  eexists _, _. split; [reflexivity|].
  rewrite nodes_cons in Hn. apply NoDup_cons in Hn as [Hxn Hn].
  rewrite fmap_cons in Hst. apply NoDup_cons in Hst as [Hxs Hst].
  assert (lseg (removed_mem m x) n l None) as Hl''.
  { eapply lseg_frame; [done|]. intros y Hy. simpl. split.
    - apply lookup_delete_ne. intros Heq. apply Hxn. rewrite Heq.
      unfold nodes. apply list_elem_of_fmap. eauto.
    - apply lookup_delete_ne. intros Heq. apply Hxs. rewrite Heq.
      apply list_elem_of_fmap. eauto. }
  split; [split|].
  - by destruct n.
  - done.
  - done.
  - destruct l as [|y l].
    + simpl in Hl'. subst n. done.
    + destruct Hl' as [-> _]. cbn [removed_queue head last_element].
      rewrite Hlast. done.
  - done.
  - by destruct n.
Qed.

Lemma q_remove_head_spec m q x l sp bufsize :
  queue_rep m q (x :: l) → 0 ≤ bufsize ≤ SIZE_MAX →
  ∃ m' q',
    q_remove_head m (Some q) sp bufsize =
      Some (m', Some q',
            match sp with
            | None => None
            | Some _ =>
                Some (take (Z.to_nat (copied (strlen (val x)) bufsize))
                           (val x) ++ ["000"%byte])
            end, true) ∧
    queue_rep m' q' l.
Proof.
  intros [Hshape Hc Hci] Hb.
  destruct (q_remove_head_chain m q x l sp bufsize Hshape Hb)
    as (m' & q' & Hrun & Hshape' & Hc').
  exists m', q'. split; [done|].
  rewrite to_int_id in Hc' by (simpl in Hc; unfold INT_MIN; lia).
  split; [done|simpl in Hc; lia..].
Qed.

End Remove.

(** ** Reversal and sorting of a queue *)

Section ReverseSort.
Implicit Types (m : mem) (p : ptr) (q : queue_t) (l : list elem) (x : elem).

Lemma q_reverse_spec m q l :
  queue_rep m q l →
  ∃ m' q',
    q_reverse m (Some q) = Some (m', Some q') ∧
    queue_rep m' q' (reverse l) ∧
    count q' = count q ∧
    head q' = last_element q ∧
    last_element q' = head q.
Proof.
  intros [[Hl Hn Hst Hlast Hv] Hc Hci].
  destruct (reverse_loop_spec l (chain_fuel m) m None (head q) [])
    as (m' & p & Hrun & Hseg & Hrel); [done|done|by rewrite app_nil_r| |].
  { by eapply lseg_length_fuel. }
  rewrite app_nil_r in Hseg.
  unfold q_reverse. cbn [head last_element count]. rewrite Hrun.
  cbn [mbind option_bind].
  assert (p = last_element q) as ->.
  { rewrite (lseg_first _ _ _ Hseg), Hlast.
    by rewrite <-list.head_lookup, list.head_reverse. }
  eexists _, _. split; [done|]. split_and!; [|done..].
  split; [split|..]; cbn [head last_element count].
  - done.
  - unfold nodes. by rewrite reverse_Permutation.
  - by rewrite reverse_Permutation.
  - rewrite (lseg_first _ _ _ Hl).
    by rewrite <-list.head_lookup, last_reverse.
  - by rewrite reverse_Permutation.
  - by rewrite length_reverse.
  - done.
Qed.

Lemma q_sort_spec m q l :
  queue_rep m q l →
  ∃ m' q',
    q_sort m (Some q) = Some (m', Some q') ∧
    queue_rep m' q' (sort_list (S (chain_fuel m)) l) ∧
    count q' = count q.
Proof.
  intros Hrep. pose proof Hrep as [[Hl Hn Hst Hlast Hv] Hc Hci].
  unfold q_sort.
  destruct l as [|x l].
  { simpl in Hl. rewrite Hl. by exists m, q. }
  pose proof Hl as [Hh _]. rewrite Hh.
  case_bool_decide as Hone.
  { assert (l = []) as ->.
    { rewrite Hc in Hone. destruct l; [done|]. simpl in Hone. lia. }
    by exists m, q. }
  rewrite <-Hh.
  pose proof (lseg_length_fuel _ _ _ _ Hl Hn) as Hfuel.
  destruct (mergesort_spec (S (chain_fuel m)) m (head q) (x :: l))
    as (m' & p & Hrun & Hseg & Hrel); [done|done|lia|].
  rewrite Hrun. cbn [mbind option_bind].
  set (l' := sort_list (S (chain_fuel m)) (x :: l)) in *.
  assert (length l' = length (x :: l)) as Hlen by apply sort_list_length.
  assert (l' ≡ₚ x :: l) as Hperm by apply sort_list_perm.
  destruct (list.last l') as [y|] eqn:Hy;
    [|apply last_None in Hy; rewrite Hy in Hlen; done].
  rewrite (find_end_spec m' l' (chain_fuel m') p y Hseg Hy).
  2:{ rewrite (relinked_fuel _ _ _ Hrel), Hlen. lia. }
  cbn [mbind option_bind].
  eexists _, _. split; [done|]. split; [|done].
  split; [split|..]; cbn [head last_element count].
  - done.
  - by rewrite (nodes_perm _ _ Hperm).
  - by rewrite Hperm.
  - by rewrite Hy.
  - by rewrite Hperm.
  - by rewrite Hlen.
  - done.
Qed.

End ReverseSort.

(** ** The invariants of the data model *)


Lemma lseg_end_None m (l : list elem) : lseg m None l None → l = [].
Proof. destruct l; simpl; [done|]. by intros [? _]. Qed.

Lemma queue_rep_invariant m q l : queue_rep m q l → invariant m q.
Proof.
  intros [[Hl Hn Hst Hlast Hv] Hc Hci].
  assert (head q = None ↔ l = []) as Hhead.
  { split; [|intros ->; exact Hl].
    intros Hh. rewrite Hh in Hl. by apply lseg_end_None in Hl. }
  assert (last_element q = None ↔ l = []) as Htail.
  { rewrite Hlast, fmap_None. apply last_None. }
  split.
  - by rewrite Hhead, Htail.
  - rewrite Htail, Hc. destruct l; simpl; split; try done; lia.
  - intros t Ht. rewrite Hlast in Ht.
    apply fmap_Some in Ht as (x & [d ->]%last_Some & ->).
    apply lseg_snoc in Hl as (r & _ & _ & _ & He). eauto.
  - intros t Ht. rewrite Hlast in Ht.
    apply fmap_Some in Ht as (x & [d ->]%last_Some & ->).
    apply lseg_snoc in Hl as (r & Hd & -> & _ & _).
    exists (length d), d. done.
  - exists l. done.
Qed.

(** ** Observing a queue *)

Section Observe.
Implicit Types (m : mem) (p : ptr) (q : queue_t) (l : list elem) (x : elem).

Lemma lseg_check_correct m l : ∀ p r,
  lseg_check m p l r = true → lseg m p l r.
Proof.
  induction l as [|x l IH]; intros p r; simpl.
  - by intros ?%bool_decide_eq_true.
  - destruct (eles m !! node x) as [[v n]|] eqn:He;
      [|by rewrite andb_false_r].
    rewrite !andb_true_iff, !bool_decide_eq_true. simpl.
    intros [[-> Hs] [-> Hl]]. split_and!; [done..|]. eauto.
Qed.

Lemma queue_rep_check_correct m q l :
  queue_rep_check m q l = true → queue_rep m q l.
Proof.
  unfold queue_rep_check. rewrite !andb_true_iff, !bool_decide_eq_true.
  intros [[[[[[Hl%lseg_check_correct ?] ?] ?] ?] ?] ?]. done.
Qed.

Lemma walk_lseg m l : ∀ fuel p,
  lseg m p l None → (length l ≤ fuel)%nat →
  walk fuel m p = (λ x, (node x, val x)) <$> l.
Proof.
  induction l as [|x l IH]; intros fuel p Hl Hfuel.
  - simpl in Hl. subst p. by destruct fuel.
  - destruct Hl as (-> & Hs & n & He & Hl).
    destruct fuel as [|fuel]; [simpl in Hfuel; lia|].
    simpl. rewrite He. simpl. rewrite Hs. simpl. f_equal.
    apply IH; [done|]. simpl in Hfuel. lia.
Qed.

Lemma elements_rep m q l :
  queue_rep m q l → elements m q = (λ x, (node x, val x)) <$> l.
Proof.
  intros [[Hl Hn _ _ _] _ _]. apply walk_lseg; [done|].
  by eapply lseg_length_fuel.
Qed.

End Observe.

(** ** Order of equal elements *)

Lemma filter_split {A} (P : A → Prop) `{∀ x, Decision (P x)} (l : list A) :
  ∀ u x v, filter P l = u ++ x :: v →
  ∃ u' v', l = u' ++ x :: v' ∧ filter P u' = u ∧ filter P v' = v.
Proof.
  induction l as [|y l IH]; intros u x v Hf.
  { by destruct u. }
  rewrite filter_cons in Hf. case_decide as Hy.
  - destruct u as [|z u]; simpl in Hf; injection Hf as -> Hf.
    + exists [], l. done.
    + destruct (IH _ _ _ Hf) as (u' & v' & -> & Hu & Hv).
      exists (z :: u'), v'. split_and!; [done| |done].
      rewrite filter_cons. case_decide; [|done]. by rewrite Hu.
  - destruct (IH _ _ _ Hf) as (u' & v' & -> & Hu & Hv).
    exists (y :: u'), v'. split_and!; [done| |done].
    rewrite filter_cons. by case_decide.
Qed.

Lemma sort_list_reverses_ties fuel l A B :
  (length l ≤ S fuel)%nat → val A = val B →
  precedes A B l → precedes B A (sort_list fuel l).
Proof.
  intros Hfuel HAB (l1 & l2 & l3 & ->).
  pose proof (sort_list_filter (val A) fuel _ Hfuel) as Hf.
  rewrite filter_app, filter_cons, filter_app, filter_cons in Hf.
  rewrite decide_True in Hf by done.
  rewrite decide_True in Hf by done.
  rewrite reverse_app, reverse_cons, reverse_app, reverse_cons in Hf.
  rewrite <-!app_assoc in Hf. simpl in Hf.
  apply filter_split in Hf as (u & v & Hl & _ & Hv).
  apply filter_split in Hv as (u' & v' & -> & _ & _).
  by exists u, u', v'.
Qed.

Lemma sorted_adjacent {A} (R : relation A) (l : list A) : ∀ i x y,
  StronglySorted R l → l !! i = Some x → l !! S i = Some y → R x y.
Proof.
  induction l as [|a l IH]; intros i x y Hs Hx Hy; [done|].
  apply StronglySorted_inv in Hs as [Hs Ha].
  destruct i as [|i]; simplify_eq/=.
  - rewrite Forall_forall in Ha. apply Ha. by eapply list_elem_of_lookup_2.
  - eauto.
Qed.

Lemma merge_loop_tie fuel m start merge left right :
  comparator m (Some left) (Some right) = Some 0 →
  merge_loop (S fuel) comparator m start merge (Some left) (Some right) =
    '(m', start', next_) ← merge_take m start merge (Some right);
    merge_loop fuel comparator m' start' (Some right) (Some left) next_.
Proof. intros Hc. cbn [merge_loop]. rewrite Hc. done. Qed.

Lemma values_sorted fuel l :
  (length l ≤ S fuel)%nat → Sorted str_le (values (sort_list fuel l)).
Proof.
  intros Hfuel. apply Sorted_fmap with (R1 := ascending); [done|].
  by apply StronglySorted_Sorted, sort_list_sorted.
Qed.

(** The truncation of [q_remove_head] for a capacity of at least 1: the
    call stores [min(strlen, bufsize - 1)] bytes of the string and a
    terminator, at most [bufsize] bytes. *)
Lemma remove_head_truncates m q x l sp bufsize :
  queue_rep m q (x :: l) → 1 ≤ bufsize ≤ SIZE_MAX →
  ∃ m' q' stored,
    q_remove_head m (Some q) (Some sp) bufsize =
      Some (m', Some q', Some stored, true) ∧
    stored = take (Z.to_nat (Z.min (strlen (val x)) (bufsize - 1))) (val x)
               ++ ["000"%byte] ∧
    Z.of_nat (length stored) = Z.min (strlen (val x)) (bufsize - 1) + 1 ∧
    Z.of_nat (length stored) ≤ bufsize.
Proof.
  intros Hrep Hb.
  destruct (q_remove_head_spec m q x l (Some sp) bufsize Hrep)
    as (m' & q' & Hrun & _); [lia|].
  unfold copied in Hrun. rewrite bool_decide_false in Hrun by lia.
  eexists m', q', _. split_and!; [done|done|..].
  - rewrite length_app, length_take. unfold strlen. simpl. lia.
  - rewrite length_app, length_take. unfold strlen. simpl. lia.
Qed.

(** ** Queue-level insertion and repeated removal *)

Lemma q_insert_head_spec m q l s :
  queue_rep m q l → count q < INT_MAX → strlen s ≤ INT_MAX →
  ∃ m' q',
    q_insert_head true true m (Some q) s = Some (m', Some q', true) ∧
    queue_rep m' q' (inserted_elem m s :: l).
Proof.
  intros [Hshape Hc Hci] Hlt Hs.
  destruct (q_insert_head_chain m q l s Hshape Hs) as (m' & q' & Hrun & Hsh & Hc').
  exists m', q'. split; [done|].
  rewrite to_int_id in Hc' by (unfold INT_MIN; lia).
  split; [done|simpl; lia|lia].
Qed.

Lemma q_insert_tail_spec m q l s :
  queue_rep m q l → count q < INT_MAX → strlen s ≤ INT_MAX →
  ∃ m' q',
    q_insert_tail true true m (Some q) s = Some (m', Some q', true) ∧
    queue_rep m' q' (l ++ [inserted_elem m s]).
Proof.
  intros [Hshape Hc Hci] Hlt Hs.
  destruct (q_insert_tail_chain m q l s Hshape Hs) as (m' & q' & Hrun & Hsh & Hc').
  exists m', q'. split; [done|].
  rewrite to_int_id in Hc' by (unfold INT_MIN; lia).
  split; [done|rewrite length_app; simpl; lia|lia].
Qed.

(** A string whose length does not fit into [len]: with a negative [len]
    the copy into the new block has no defined result. *)
Lemma q_insert_tail_negative_len m q s :
  to_int (strlen s) < 0 → q_insert_tail true true m (Some q) s = None.
Proof.
  intros Hlen. unfold q_insert_tail, malloc_ele, malloc_str, store_value,
    copy_string.
  cbn. rewrite lookup_insert_eq. cbn. rewrite lookup_insert_eq. cbn.
  by rewrite bool_decide_false by lia.
Qed.

Lemma strlen_repeat (b : byte) (z : Z) :
  0 ≤ z → strlen (repeat b (Z.to_nat z)) = z.
Proof. intros Hz. unfold strlen. rewrite repeat_length. by apply Z2Nat.id. Qed.

Lemma drain_spec l1 : ∀ m q l2,
  chain_rep m q (l1 ++ l2) →
  ∃ m' q', drain (length l1) m (Some q) = Some (m', Some q') ∧
           chain_rep m' q' l2.
Proof.
  induction l1 as [|x l1 IH]; intros m q l2 Hrep.
  - by exists m, q.
  - destruct (q_remove_head_chain m q x (l1 ++ l2) None 0 Hrep)
      as (m1 & q1 & Hrun & Hrep1 & _); [unfold SIZE_MAX; lia|].
    destruct (IH m1 q1 l2 Hrep1) as (m' & q' & Hrun' & Hrep').
    exists m', q'. split; [|done].
    cbn [length drain]. rewrite Hrun. done.
Qed.

Lemma remove_head_whole m q x l sp bufsize :
  chain_rep m q (x :: l) → strlen (val x) < bufsize ≤ SIZE_MAX →
  ∃ m' q',
    q_remove_head m (Some q) (Some sp) bufsize =
      Some (m', Some q', Some (val x ++ ["000"%byte]), true) ∧
    chain_rep m' q' l.
Proof.
  intros Hrep Hb. assert (0 ≤ strlen (val x)) by (unfold strlen; lia).
  destruct (q_remove_head_chain m q x l (Some sp) bufsize Hrep)
    as (m' & q' & Hrun & Hrep' & _); [lia|].
  exists m', q'. split; [|done]. rewrite Hrun. do 4 f_equal.
  unfold copied. rewrite bool_decide_false by lia.
  rewrite Z.min_l by lia. by rewrite take_strlen.
Qed.

(** ** A queue of [n] empty strings *)

Section LongQueue.
Implicit Types (n i j k : nat).

Global Instance nth_node_inj : Inj (=) (=) nth_node.
Proof. intros i j H. apply Nat2Pos.inj in H; lia. Qed.

Global Instance nth_str_inj : Inj (=) (=) nth_str.
Proof. intros i j H. apply Nat2Pos.inj in H; lia. Qed.

Lemma long_mem_ele n i :
  (i < n)%nat →
  eles (long_mem n) !! nth_node i =
    Some (Ele (Some (nth_str i)) (nth_ptr n (S i))).
Proof.
  intros Hi. apply elem_of_list_to_map_1.
  - rewrite <-list_fmap_compose. apply NoDup_fmap_2; [|apply NoDup_seq].
    intros a b H. by apply nth_node_inj.
  - apply list_elem_of_fmap. exists i. split; [done|].
    apply elem_of_seq. lia.
Qed.

Lemma long_mem_str n i :
  (i < n)%nat → strs (long_mem n) !! nth_str i = Some [].
Proof.
  intros Hi. apply elem_of_list_to_map_1.
  - rewrite <-list_fmap_compose. apply NoDup_fmap_2; [|apply NoDup_seq].
    intros a b H. by apply nth_str_inj.
  - apply list_elem_of_fmap. exists i. split; [done|].
    apply elem_of_seq. lia.
Qed.

Lemma long_mem_lseg n j : ∀ k,
  (k + j = n)%nat →
  lseg (long_mem n) (nth_ptr n k) (nth_elem <$> seq k j) None.
Proof.
  induction j as [|j IH]; intros k Hk.
  - simpl. unfold nth_ptr. rewrite decide_False; [done|lia].
  - cbn [seq fmap list_fmap lseg]. split_and!.
    + unfold nth_ptr. rewrite decide_True; [done|lia].
    + apply long_mem_str. lia.
    + exists (nth_ptr n (S k)). split; [apply long_mem_ele; lia|].
      apply IH. lia.
Qed.

Lemma long_list_last n : list.last (long_list n) = nth_elem <$> list.last (seq 0 n).
Proof. unfold long_list. by rewrite fmap_last. Qed.

Lemma seq_last n : list.last (seq 0 n) = if decide (0 < n)%nat then Some (pred n) else None.
Proof.
  destruct n as [|n']; [done|].
  rewrite seq_S, last_snoc. done.
Qed.

Lemma long_queue_rep n :
  Z.of_nat n ≤ INT_MAX → queue_rep (long_mem n) (long_queue n) (long_list n).
Proof.
  intros Hn. split; [split|..]; cbn [head last_element count].
  - apply (long_mem_lseg n n 0). lia.
  - unfold nodes, long_list. rewrite <-list_fmap_compose.
    apply NoDup_fmap_2; [|apply NoDup_seq].
    intros a b H. by apply nth_node_inj.
  - unfold long_list. rewrite <-list_fmap_compose.
    apply NoDup_fmap_2; [|apply NoDup_seq].
    intros a b H. by apply nth_str_inj.
  - rewrite long_list_last, seq_last. unfold long_queue, nth_ptr.
    cbn [last_element]. destruct n; [done|].
    repeat case_decide; simpl in *; try lia; done.
  - unfold long_list. apply Forall_fmap, Forall_forall. intros i _.
    simpl. unfold strlen, INT_MAX. simpl. lia.
  - unfold long_list. by rewrite length_fmap, length_seq.
  - done.
Qed.

(** One more insertion into a queue of [INT_MAX] elements succeeds and
    leaves [count] at [INT_MIN]. *)
Lemma long_queue_overflow n :
  Z.of_nat n = INT_MAX →
  ∃ m' q',
    q_insert_tail true true (long_mem n) (Some (long_queue n)) [] =
      Some (m', Some q', true) ∧
    count q' = INT_MIN ∧ ¬ invariant m' q'.
Proof.
  intros Hn.
  assert (Z.of_nat n ≤ INT_MAX) as Hle by (by rewrite Hn).
  destruct (long_queue_rep n Hle) as [Hshape _ _].
  destruct (q_insert_tail_chain _ _ _ [] Hshape) as (m' & q' & Hrun & _ & Hc).
  { done. }
  cbn [long_queue count] in Hc. rewrite Hn in Hc.
  change (to_int (INT_MAX + 1)) with INT_MIN in Hc.
  exists m', q'. split_and!; [done|done|].
  intros [_ _ _ _ (l & _ & _ & Hl)]. rewrite Hc in Hl.
  unfold INT_MIN in Hl. lia.
Qed.

(** For three elements this is the memory that the insertions compute. *)
Lemma long_queue_three :
  long_mem 3 = mem_of [""; ""; ""]%string ∧
  long_queue 3 = handle_of [""; ""; ""]%string.
Proof. split; vm_compute; reflexivity. Qed.

End LongQueue.

(** ** Concrete queues *)

Lemma twin_rep : queue_rep twin_mem twin_queue [twin_first; twin_second].
Proof. apply queue_rep_check_correct. vm_compute. reflexivity. Qed.

(** ** The memory outside the queue *)

Section Rest.
Implicit Types (m : mem) (p : ptr) (q : queue_t) (l : list elem) (x : elem).

Lemma mem_eq m m' : eles m = eles m' → strs m = strs m' → m = m'.
Proof. destruct m, m'. simpl. by intros -> ->. Qed.

Lemma rest_eles m l a :
  eles (rest m l) !! a = if decide (a ∈ nodes l) then None else eles m !! a.
Proof.
  unfold rest. cbn [eles]. case_decide as Hin.
  - apply map_lookup_filter_None. right. intros e _. simpl. tauto.
  - destruct (eles m !! a) as [e|] eqn:He.
    + by apply map_lookup_filter_Some.
    + apply map_lookup_filter_None. by left.
Qed.

Lemma rest_strs m l v :
  strs (rest m l) !! v = if decide (v ∈ str <$> l) then None else strs m !! v.
Proof.
  unfold rest. cbn [strs]. case_decide as Hin.
  - apply map_lookup_filter_None. right. intros e _. simpl. tauto.
  - destruct (strs m !! v) as [e|] eqn:He.
    + by apply map_lookup_filter_Some.
    + apply map_lookup_filter_None. by left.
Qed.

Lemma rest_nil m : rest m [] = m.
Proof.
  apply mem_eq; apply map_eq; intros a.
  - rewrite rest_eles. case_decide as Hin; [|done]. by apply elem_of_nil in Hin.
  - rewrite rest_strs. case_decide as Hin; [|done]. by apply elem_of_nil in Hin.
Qed.

(** Two memories have the same rest when they agree outside the elements
    and hold nothing at the addresses that belong to one list only. *)
Lemma rest_eq m l m' l' :
  (∀ a, a ∉ nodes l → a ∉ nodes l' → eles m' !! a = eles m !! a) →
  (∀ a, a ∈ nodes l → a ∉ nodes l' → eles m' !! a = None) →
  (∀ a, a ∉ nodes l → a ∈ nodes l' → eles m !! a = None) →
  (∀ v, v ∉ str <$> l → v ∉ str <$> l' → strs m' !! v = strs m !! v) →
  (∀ v, v ∈ str <$> l → v ∉ str <$> l' → strs m' !! v = None) →
  (∀ v, v ∉ str <$> l → v ∈ str <$> l' → strs m !! v = None) →
  rest m' l' = rest m l.
Proof.
  intros H1 H2 H3 H4 H5 H6. apply mem_eq; apply map_eq; intros a.
  - rewrite !rest_eles. repeat case_decide; auto. symmetry. auto.
  - rewrite !rest_strs. repeat case_decide; auto. symmetry. auto.
Qed.

Lemma rest_relinked m m' l l' :
  relinked (nodes l) m m' → l' ≡ₚ l → rest m' l' = rest m l.
Proof.
  intros [Hs Hv Ho] Hp.
  assert (∀ a, a ∈ nodes l' ↔ a ∈ nodes l) as Hn.
  { intros a. unfold nodes. by rewrite Hp. }
  assert (∀ v, v ∈ str <$> l' ↔ v ∈ str <$> l) as Hst.
  { intros v. by rewrite Hp. }
  apply rest_eq.
  - intros a Ha _. by apply Ho.
  - intros a Ha Ha'. by apply Hn in Ha.
  - intros a Ha Ha'. by apply Hn in Ha'.
  - intros v _ _. by rewrite Hs.
  - intros v Ha Ha'. by apply Hst in Ha.
  - intros v Ha Ha'. by apply Hst in Ha'.
Qed.

Lemma rest_removed m x l :
  node x ∉ nodes l → str x ∉ str <$> l →
  rest (removed_mem m x) l = rest m (x :: l).
Proof.
  intros Hn Hs. apply mem_eq; apply map_eq; intros a.
  - rewrite !rest_eles, nodes_cons. cbn [removed_mem eles].
    destruct (decide (a = node x)) as [->|Hne].
    + rewrite decide_False, decide_True by (done || left).
      apply lookup_delete_eq.
    + rewrite lookup_delete_ne by done.
      repeat case_decide; try done.
      * exfalso. match goal with H : ¬ _ |- _ => apply H end. by right.
      * match goal with H : _ ∈ _ :: _ |- _ => apply elem_of_cons in H as [?|?] end; done.
  - rewrite !rest_strs, fmap_cons. cbn [removed_mem strs].
    destruct (decide (a = str x)) as [->|Hne].
    + rewrite decide_False, decide_True by (done || left).
      apply lookup_delete_eq.
    + rewrite lookup_delete_ne by done.
      repeat case_decide; try done.
      * exfalso. match goal with H : ¬ _ |- _ => apply H end. by right.
      * match goal with H : _ ∈ _ :: _ |- _ => apply elem_of_cons in H as [?|?] end; done.
Qed.

Lemma free_loop_spec l : ∀ fuel m p,
  lseg m p l None → NoDup (nodes l) → NoDup (str <$> l) →
  (length l ≤ fuel)%nat →
  free_loop fuel m p = Some (rest m l).
Proof.
  induction l as [|x l IH]; intros fuel m p Hl Hn Hs Hf.
  - simpl in Hl. subst p. rewrite rest_nil. by destruct fuel.
  - destruct Hl as (-> & Hsx & n & He & Hl).
    destruct fuel as [|fuel]; [simpl in Hf; lia|].
    rewrite nodes_cons in Hn. apply NoDup_cons in Hn as [Hxn Hn].
    rewrite fmap_cons in Hs. apply NoDup_cons in Hs as [Hxs Hs].
    cbn [free_loop load mbind option_bind]. rewrite He.
    cbn [mbind option_bind value next free_str]. rewrite Hsx.
    cbn [mbind option_bind free_ele with_strs eles]. rewrite He.
    cbn [mbind option_bind].
    change (with_eles _ _) with (removed_mem m x).
    rewrite <-rest_removed by done.
    apply IH; [|done|done|simpl in Hf; lia].
    eapply lseg_frame; [done|]. intros y Hy. simpl. split.
    + apply lookup_delete_ne. intros Heq. apply Hxn. rewrite Heq.
      unfold nodes. apply list_elem_of_fmap. eauto.
    + apply lookup_delete_ne. intros Heq. apply Hxs. rewrite Heq.
      apply list_elem_of_fmap. eauto.
Qed.

Lemma q_free_chain m q l :
  chain_rep m q l → q_free m (Some q) = Some (rest m l).
Proof.
  intros [Hl Hn Hs _ _]. unfold q_free.
  apply free_loop_spec; [done..|]. by eapply lseg_length_fuel.
Qed.

End Rest.

Global Instance str_le_total : Total str_le.
Proof. intros a b. unfold str_le. rewrite (strcmp_antisym a b). lia. Qed.

Lemma values_sort_list fuel l :
  (length l ≤ S fuel)%nat →
  values (sort_list fuel l) = merge_sort str_le (values l).
Proof.
  intros Hf. apply (Sorted_unique str_le).
  - by apply values_sorted.
  - apply Sorted_merge_sort. apply _.
  - rewrite merge_sort_Permutation. unfold values. by rewrite sort_list_perm.
Qed.

Section Frames.
Implicit Types (m : mem) (p : ptr) (q : queue_t) (l : list elem) (x : elem).

Lemma removed_inserted m s n :
  removed_mem (inserted_mem m s n) (inserted_elem m s) = m.
Proof.
  destruct (inserted_elem_fresh m s) as [Ha Hb].
  unfold removed_mem, inserted_mem. cbn [eles strs].
  rewrite !delete_insert_eq, !delete_id by done. apply mem_eta.
Qed.

Lemma chain_fresh_str m q l s :
  chain_rep m q l → str (inserted_elem m s) ∉ str <$> l.
Proof.
  intros Hrep Hin. destruct (inserted_elem_fresh m s) as [_ Hb].
  destruct (chain_strs_dom _ _ _ _ Hrep Hin) as [? Heq]. by rewrite Hb in Heq.
Qed.

Lemma rest_inserted m q s n l l' m' :
  chain_rep m q l →
  relinked (nodes l) (inserted_mem m s n) m' →
  l' ≡ₚ inserted_elem m s :: l →
  rest m' l' = rest m l.
Proof.
  intros Hrep Hrel Hp.
  rewrite (rest_relinked (inserted_mem m s n) m' (inserted_elem m s :: l) l').
  - rewrite <-rest_removed.
    + by rewrite removed_inserted.
    + by apply (chain_fresh_node m q).
    + by apply (chain_fresh_str m q).
  - eapply relinked_mono; [|done]. intros a Ha. rewrite nodes_cons. by right.
  - done.
Qed.

Lemma chain_last_node m q l t :
  chain_rep m q l → last_element q = Some t → t ∈ nodes l.
Proof.
  intros [_ _ _ Hlast _] Ht. rewrite Ht in Hlast.
  symmetry in Hlast. apply fmap_Some in Hlast as (y & Hy & ->).
  apply last_Some in Hy as [d ->]. rewrite nodes_app.
  apply elem_of_app. right. left.
Qed.

(** Besides the two new blocks, [q_insert_tail] writes only the [next]
    field of the node that was the last one. *)
Lemma q_insert_tail_relinked m q l s :
  chain_rep m q l → strlen s ≤ INT_MAX →
  ∃ m' q',
    q_insert_tail true true m (Some q) s = Some (m', Some q', true) ∧
    relinked (option_list (last_element q)) (inserted_mem m s None) m'.
Proof.
  intros Hrep Hs.
  destruct (q_insert_tail_chain m q l s Hrep Hs) as (m' & q' & Hrun & _).
  exists m', q'. split; [done|].
  rewrite (q_insert_tail_eq m q s Hs) in Hrun. cbn zeta in Hrun.
  destruct (last_element q) as [t|] eqn:Ht.
  - destruct (store_next _ _ _) as [m6|] eqn:Hm6; [|done].
    cbn in Hrun. injection Hrun as <- _.
    by eapply relinked_store_next.
  - cbn in Hrun. injection Hrun as <- _. apply relinked_refl.
Qed.

Lemma q_reverse_relinked m q l :
  queue_rep m q l →
  ∃ m' q', q_reverse m (Some q) = Some (m', Some q') ∧
           relinked (nodes l) m m'.
Proof.
  intros [[Hl Hn Hst Hlast Hv] Hc Hci].
  destruct (reverse_loop_spec l (chain_fuel m) m None (head q) [])
    as (m' & p & Hrun & Hseg & Hrel); [done|done|by rewrite app_nil_r| |].
  { by eapply lseg_length_fuel. }
  unfold q_reverse. cbn [head last_element count]. rewrite Hrun.
  cbn [mbind option_bind]. eauto.
Qed.

Lemma q_sort_relinked m q l :
  queue_rep m q l →
  ∃ m' q', q_sort m (Some q) = Some (m', Some q') ∧
           relinked (nodes l) m m'.
Proof.
  intros Hrep. pose proof Hrep as [[Hl Hn Hst Hlast Hv] Hc Hci].
  destruct (q_sort_spec m q l Hrep) as (m' & q' & Hrun & _).
  exists m', q'. split; [done|].
  unfold q_sort in Hrun.
  destruct (head q) as [h|] eqn:Hh;
    [|injection Hrun as <- _; apply relinked_refl].
  case_bool_decide as Hone; [injection Hrun as <- _; apply relinked_refl|].
  pose proof (lseg_length_fuel _ _ _ _ Hl Hn) as Hfuel.
  destruct (mergesort_spec (S (chain_fuel m)) m (Some h) l)
    as (m1 & p & Hrun1 & _ & Hrel); [done|done|lia|].
  rewrite Hrun1 in Hrun. cbn [mbind option_bind] in Hrun.
  destruct (find_end _ _ _); [|done]. cbn in Hrun. by injection Hrun as <- _.
Qed.

End Frames.

(** ** Sequences of calls *)

Section Run.
Implicit Types (m : mem) (p : ptr) (q : queue_t) (l : list elem) (x : elem)
  (o : op) (ops : list op).

Lemma values_app l1 l2 : values (l1 ++ l2) = values l1 ++ values l2.
Proof. apply fmap_app. Qed.

(** One call: the queue stays well formed, its strings change as in the
    list model, the memory outside the queue does not change. *)
Lemma run_op_spec o m q l :
  queue_rep m q l → op_ok o → Z.of_nat (length l) < INT_MAX →
  ∃ m' q' l',
    run_op o m (Some q) = Some (m', Some q') ∧
    queue_rep m' q' l' ∧
    values l' = model_op o (values l) ∧
    rest m' l' = rest m l ∧
    (length l' ≤ S (length l))%nat.
Proof.
  intros Hrep Hok Hlen. pose proof Hrep as [Hshape Hc Hci].
  destruct o as [node_ok str_ok s|node_ok str_ok s|sp bufsize| |];
    cbn [run_op model_op op_ok] in *.
  - (* q_insert_head *)
    assert (strlen s ≤ INT_MAX) as Hs by lia.
    destruct (node_ok && str_ok) eqn:Hall.
    + apply andb_true_iff in Hall as [-> ->].
      destruct (q_insert_head_spec m q l s Hrep) as (m' & q' & Hrun & Hrep');
        [lia|done|].
      exists m', q', (inserted_elem m s :: l). rewrite Hrun.
      split_and!; [done|done|done| |done].
      rewrite (q_insert_head_eq m q s Hs) in Hrun. injection Hrun as <- _.
      eapply rest_inserted; [done|apply relinked_refl|done].
    + rewrite q_insert_head_fail by done. exists m, q, l.
      split_and!; [done..|lia].
  - (* q_insert_tail *)
    assert (strlen s ≤ INT_MAX) as Hs by lia.
    destruct (node_ok && str_ok) eqn:Hall.
    + apply andb_true_iff in Hall as [-> ->].
      destruct (q_insert_tail_spec m q l s Hrep) as (m' & q' & Hrun & Hrep');
        [lia|done|].
      exists m', q', (l ++ [inserted_elem m s]). rewrite Hrun.
      split_and!; [done|done|by rewrite values_app| |].
      * destruct (q_insert_tail_relinked m q l s Hshape Hs)
          as (m1 & q1 & Hrun1 & Hrel).
        rewrite Hrun in Hrun1. injection Hrun1 as <- _.
        eapply (rest_inserted m q s None); [done| |by rewrite Permutation_app_comm].
        eapply relinked_mono; [|exact Hrel].
        intros a Ha. destruct (last_element q) as [t|] eqn:Ht; simpl in Ha;
          [|by apply elem_of_nil in Ha].
        apply list_elem_of_singleton in Ha as ->.
        by apply (chain_last_node m q).
      * rewrite length_app. simpl. lia.
    + rewrite q_insert_tail_fail by done. exists m, q, l.
      split_and!; [done..|lia].
  - (* q_remove_head *)
    assert (0 ≤ bufsize ≤ SIZE_MAX) as Hb by (destruct sp; lia).
    destruct l as [|x l].
    + destruct Hshape as [Hl _ _ _ _]. simpl in Hl.
      unfold q_remove_head. rewrite Hl. exists m, q, [].
      split_and!; [done..|simpl; lia].
    + destruct (q_remove_head_spec m q x l sp bufsize Hrep Hb)
        as (m' & q' & Hrun & Hrep').
      exists m', q', l. rewrite Hrun.
      split_and!; [done|done|done| |simpl; lia].
      destruct Hshape as [Hl Hn Hst _ Hv].
      destruct Hl as (Hh & Hs & n & He & Hl).
      apply Forall_cons in Hv as [Hvx Hv].
      rewrite (q_remove_head_eq m q x n sp bufsize) in Hrun by done.
      injection Hrun as <- _.
      rewrite nodes_cons in Hn. apply NoDup_cons in Hn as [Hxn Hn].
      rewrite fmap_cons in Hst. apply NoDup_cons in Hst as [Hxs Hst].
      by apply rest_removed.
  - (* q_reverse *)
    destruct (q_reverse_spec m q l Hrep) as (m' & q' & Hrun & Hrep' & _).
    exists m', q', (reverse l). rewrite Hrun.
    split_and!; [done|done|apply fmap_reverse| |by rewrite length_reverse; lia].
    destruct (q_reverse_relinked m q l Hrep) as (m1 & q1 & Hrun1 & Hrel).
    rewrite Hrun in Hrun1. injection Hrun1 as <- _.
    apply rest_relinked; [done|]. apply reverse_Permutation.
  - (* q_sort *)
    destruct (q_sort_spec m q l Hrep) as (m' & q' & Hrun & Hrep' & _).
    exists m', q', (sort_list (S (chain_fuel m)) l). rewrite Hrun.
    assert (length l ≤ chain_fuel m)%nat as Hfuel.
    { destruct Hshape as [Hl Hn _ _ _]. by eapply lseg_length_fuel. }
    split_and!; [done|done| | |by rewrite sort_list_length; lia].
    + apply values_sort_list. lia.
    + destruct (q_sort_relinked m q l Hrep) as (m1 & q1 & Hrun1 & Hrel).
      rewrite Hrun in Hrun1. injection Hrun1 as <- _.
      apply rest_relinked; [done|]. apply sort_list_perm.
Qed.

Lemma run_spec ops : ∀ m q l,
  queue_rep m q l → Forall op_ok ops →
  Z.of_nat (length l + length ops) ≤ INT_MAX →
  ∃ m' q' l',
    run ops m (Some q) = Some (m', Some q') ∧
    queue_rep m' q' l' ∧
    values l' = model ops (values l) ∧
    rest m' l' = rest m l.
Proof.
  induction ops as [|o ops IH]; intros m q l Hrep Hok Hlen.
  - by exists m, q, l.
  - apply Forall_cons in Hok as [Ho Hok]. cbn [length] in Hlen.
    destruct (run_op_spec o m q l Hrep Ho) as (m1 & q1 & l1 & Hrun1 & Hrep1 & Hv1 & Hr1 & Hl1);
      [lia|].
    destruct (IH m1 q1 l1 Hrep1 Hok) as (m' & q' & l' & Hrun & Hrep' & Hv & Hr);
      [lia|].
    exists m', q', l'. cbn [run]. rewrite Hrun1. cbn [mbind option_bind].
    split_and!; [done|done| |congruence].
    unfold model in *. cbn [foldl]. by rewrite <-Hv1.
Qed.

End Run.

Section Sequences.
Implicit Types (m : mem) (p : ptr) (q : queue_t) (l : list elem) (x : elem)
  (ss : list (list byte)).

Lemma elements_values m q l : queue_rep m q l → (elements m q).*2 = values l.
Proof.
  intros Hrep. rewrite (elements_rep _ _ _ Hrep).
  unfold values. by rewrite <-list_fmap_compose.
Qed.

Lemma elements_nodes m q l : queue_rep m q l → (elements m q).*1 = nodes l.
Proof.
  intros Hrep. rewrite (elements_rep _ _ _ Hrep).
  unfold nodes. by rewrite <-list_fmap_compose.
Qed.

Lemma queue_rep_nil m q : queue_rep m q [] → q = Queue None None 0.
Proof.
  intros [[Hl _ _ Hlast _] Hc _]. destruct q as [h t c]. simpl in *.
  by subst.
Qed.

Lemma remove_all_spec sp bufsize l : ∀ m q,
  queue_rep m q l →
  Forall (λ x, strlen (val x) < bufsize) l → bufsize ≤ SIZE_MAX →
  remove_all (length l) m (Some q) sp bufsize =
    Some (rest m l, Some (Queue None None 0),
          (λ x, val x ++ ["000"%byte]) <$> l).
Proof.
  induction l as [|x l IH]; intros m q Hrep Hlen Hb.
  - cbn. by rewrite rest_nil, (queue_rep_nil m q Hrep).
  - apply Forall_cons in Hlen as [Hx Hlen].
    assert (0 ≤ strlen (val x)) by (unfold strlen; lia).
    destruct (q_remove_head_spec m q x l (Some sp) bufsize Hrep)
      as (m' & q' & Hrun & Hrep'); [lia|].
    cbn [length remove_all]. rewrite Hrun. cbn [mbind option_bind].
    rewrite (IH m' q' Hrep' Hlen Hb). cbn.
    pose proof Hrep as [[Hl Hn Hst _ Hv] _ _].
    destruct Hl as (Hh & Hs & n & He & Hl).
    apply Forall_cons in Hv as [Hvx Hv].
    rewrite (q_remove_head_eq m q x n (Some sp) bufsize) in Hrun by (done || lia).
    injection Hrun as <- _.
    rewrite nodes_cons in Hn. apply NoDup_cons in Hn as [Hxn Hn].
    rewrite fmap_cons in Hst. apply NoDup_cons in Hst as [Hxs Hst].
    rewrite rest_removed by done. do 4 f_equal.
    unfold copied. rewrite bool_decide_false by lia.
    rewrite Z.min_l by lia. by rewrite take_strlen.
Qed.





Lemma run_null ops : ∀ m, run ops m None = Some (m, None).
Proof.
  induction ops as [|o ops IH]; intros m; [done|].
  cbn [run]. destruct o; cbn; apply IH.
Qed.

End Sequences.

(** ** Strings longer than an [int] counts *)

Section Truncation.
Implicit Types (m : mem) (s : list byte).

Lemma to_int_range z : INT_MIN ≤ to_int z ≤ INT_MAX.
Proof.
  unfold to_int, INT_MIN, INT_MAX.
  pose proof (Z.mod_pos_bound (z + 2147483648) 4294967296). lia.
Qed.

Lemma to_int_le z : 0 ≤ z → to_int z ≤ z.
Proof.
  intros Hz. unfold to_int.
  pose proof (Z.mod_le (z + 2147483648) 4294967296). lia.
Qed.

Lemma to_int_wrap k : 0 ≤ k ≤ INT_MAX → to_int (4294967296 + k) = k.
Proof.
  unfold INT_MAX, to_int. intros Hk.
  replace (4294967296 + k + 2147483648) with
    (k + 2147483648 + 1 * 4294967296) by lia.
  rewrite Z.mod_add by done. rewrite Z.mod_small; lia.
Qed.

(** The copy of [q_insert_head] and [q_insert_tail] sees only the first
    [len] bytes of [s]. *)
Lemma copy_string_prefix m dst s :
  0 ≤ to_int (strlen s) →
  copy_string m dst s (to_int (strlen s)) =
  copy_string m dst (take (Z.to_nat (to_int (strlen s))) s)
    (to_int (strlen (take (Z.to_nat (to_int (strlen s))) s))).
Proof.
  intros Hk. set (k := to_int (strlen s)) in *.
  assert (strlen (take (Z.to_nat k) s) = k) as Hlen.
  { unfold strlen. rewrite length_take.
    pose proof (to_int_le (strlen s)). unfold strlen in *. lia. }
  rewrite Hlen, to_int_id.
  - unfold copy_string. by rewrite take_take, Nat.min_id.
  - pose proof (to_int_range (strlen s)). unfold INT_MIN in *. lia.
Qed.

End Truncation.

(** ** The properties of the queue operations *)

(** C1, counterexample: "a" is inserted twice, first in node 1, then in
    node 3; after [q_sort] node 3 precedes node 1. *)
Lemma sort_not_stable :
  val twin_first = val twin_second ∧
  queue_rep twin_mem twin_queue [twin_first; twin_second] ∧
  precedes twin_first twin_second [twin_first; twin_second] ∧
  ∃ m' q',
    q_sort twin_mem (Some twin_queue) = Some (m', Some q') ∧
    queue_rep m' q' [twin_second; twin_first] ∧
    elements m' q' = [(3%positive, bytes "a"); (1%positive, bytes "a")] ∧
    ¬ precedes twin_first twin_second [twin_second; twin_first].
Proof.
  split_and!; [done|apply twin_rep|by exists [], [], []|].
  eexists _, _. split_and!.
  - vm_compute. reflexivity.
  - apply queue_rep_check_correct. vm_compute. reflexivity.
  - vm_compute. reflexivity.
  - intros (l1 & l2 & l3 & H).
    destruct l1 as [|? [|? l1]]; simplify_eq/=.
    + by destruct l2.
    + by destruct l1.
Qed.

(** C1 (amended): [q_sort] is not stable, it reverses ties.  For every
    queue, whenever two elements with equal string values stood with A
    before B, after the sort B precedes A; and the merge loop, on an equal
    comparison, takes the front node of the right sub-chain before the
    front node of the left one. *)
Theorem sort_reverses_equal_elements m q l :
  queue_rep m q l →
  ∃ m' q' l',
    q_sort m (Some q) = Some (m', Some q') ∧ queue_rep m' q' l' ∧
    (∀ A B, val A = val B → precedes A B l → precedes B A l') ∧
    (∀ fuel m0 start merge left right,
       comparator m0 (Some left) (Some right) = Some 0 →
       merge_loop (S fuel) comparator m0 start merge (Some left) (Some right) =
         '(m1, start1, next_) ← merge_take m0 start merge (Some right);
         merge_loop fuel comparator m1 start1 (Some right) (Some left) next_).
Proof.
  intros Hrep. destruct (q_sort_spec m q l Hrep) as (m' & q' & Hrun & Hrep' & _).
  exists m', q', (sort_list (S (chain_fuel m)) l).
  split_and!; [done|done| |].
  - intros A B HAB Hprec. apply sort_list_reverses_ties; [|done..].
    destruct Hrep as [[Hl Hn _ _ _] _ _].
    pose proof (lseg_length_fuel _ _ _ _ Hl Hn). lia.
  - intros. by apply merge_loop_tie.
Qed.

(** The theorem at the queue ["a"; "a"]: the second "a" comes out first,
    and a merge step on its two nodes takes the right one. *)
Lemma sort_reverses_equal_elements_witness :
  queue_rep twin_mem twin_queue [twin_first; twin_second] ∧
  comparator twin_mem (Some 1%positive) (Some 3%positive) = Some 0 ∧
  (∃ m' q' l',
     q_sort twin_mem (Some twin_queue) = Some (m', Some q') ∧
     queue_rep m' q' l' ∧ precedes twin_second twin_first l') ∧
  merge_loop 1 comparator twin_mem None None (Some 1%positive) (Some 3%positive) =
    '(m1, start1, next_) ← merge_take twin_mem None None (Some 3%positive);
    merge_loop 0 comparator m1 start1 (Some 3%positive) (Some 1%positive) next_.
Proof.
  assert (queue_rep twin_mem twin_queue [twin_first; twin_second]) as Hrep.
  { apply queue_rep_check_correct. vm_compute. reflexivity. }
  assert (comparator twin_mem (Some 1%positive) (Some 3%positive) = Some 0)
    as Htie.
  { vm_compute. reflexivity. }
  split; [exact Hrep|]. split; [exact Htie|].
  destruct (sort_reverses_equal_elements _ _ _ Hrep)
    as (m' & q' & l' & Hrun & Hrep' & Hties & Hmerge).
  split.
  - exists m', q', l'. split_and!; [assumption|assumption|].
    apply Hties; [reflexivity|]. exists [], [], []. reflexivity.
  - apply Hmerge. exact Htie.
Defined.

(** C2: for every queue, in particular every non-empty one, [q_sort]
    rearranges exactly the elements that are there (the result is a
    permutation, so the multiset of stored strings is unchanged) into
    ascending order: [comparator] on every adjacent pair of the resulting
    chain is at most 0.  Sorting ["banana"; "apple"; "cherry"] yields
    ["apple"; "banana"; "cherry"]. *)
Theorem sort_ascending_permutation m q l :
  queue_rep m q l →
  ∃ m' q' l',
    q_sort m (Some q) = Some (m', Some q') ∧ queue_rep m' q' l' ∧
    l' ≡ₚ l ∧ values l' ≡ₚ values l ∧
    (∀ i x y, l' !! i = Some x → l' !! S i = Some y →
       ∃ c, comparator m' (Some (node x)) (Some (node y)) = Some c ∧ c ≤ 0) ∧
    ('(m0, q0) ← queue_of ["banana"; "apple"; "cherry"]%string;
     '(m1, q1) ← q_sort m0 q0;
     q2 ← q1; Some (elements m1 q2).*2) =
      Some (bytes <$> ["apple"; "banana"; "cherry"]%string).
Proof.
  intros Hrep.
  destruct (q_sort_spec m q l Hrep) as (m' & q' & Hrun & Hrep' & _).
  set (l' := sort_list (S (chain_fuel m)) l) in *.
  assert (l' ≡ₚ l) as Hperm by apply sort_list_perm.
  exists m', q', l'. split_and!; [done|done|done| | |by vm_compute].
  - unfold values. by rewrite Hperm.
  - intros i x y Hx Hy. destruct Hrep' as [[Hl' _ _ _ _] _ _].
    rewrite (comparator_eq m' _ l' i x _ l' (S i) y) by done.
    eexists. split; [done|].
    apply (sorted_adjacent ascending l' i x y); [|done..].
    apply sort_list_sorted.
    destruct Hrep as [[Hl Hn _ _ _] _ _].
    pose proof (lseg_length_fuel _ _ _ _ Hl Hn). lia.
Qed.

(** The theorem at the queue ["banana"; "apple"; "cherry"]. *)
Lemma sort_ascending_permutation_witness :
  queue_rep fruit_mem fruit_queue fruit_list ∧
  ∃ m' q' l',
    q_sort fruit_mem (Some fruit_queue) = Some (m', Some q') ∧
    queue_rep m' q' l' ∧ l' ≡ₚ fruit_list.
Proof.
  assert (queue_rep fruit_mem fruit_queue fruit_list) as Hrep.
  { apply queue_rep_check_correct. vm_compute. reflexivity. }
  split; [exact Hrep|].
  destruct (sort_ascending_permutation _ _ _ Hrep)
    as (m' & q' & l' & Hrun & Hrep' & Hperm & _).
  exists m', q', l'. split_and!; assumption.
Defined.

(** C3, counterexample: a queue of [INT_MAX] elements satisfies the
    invariant; [q_insert_tail] succeeds on it and returns a queue whose
    [count] is [INT_MIN], which is not the number of its nodes.  And on the
    empty queue, which satisfies the invariant, [q_insert_tail] of a
    string of [2^32 - 1] bytes computes [len = -1], allocates [len + 1 = 0]
    bytes and copies outside of them: no queue results. *)
Lemma invariant_lost_at_int_max :
  (queue_rep (long_mem full_len) (long_queue full_len) (long_list full_len) ∧
   invariant (long_mem full_len) (long_queue full_len) ∧
   ∃ m' q',
     q_insert_tail true true (long_mem full_len)
       (Some (long_queue full_len)) [] = Some (m', Some q', true) ∧
     count q' = INT_MIN ∧ ¬ invariant m' q') ∧
  (invariant empty_mem (Queue None None 0) ∧
   to_int (strlen huge_string) = -1 ∧
   q_insert_tail true true empty_mem (Some (Queue None None 0)) huge_string =
     None).
Proof.
  assert (Z.of_nat full_len = INT_MAX) as Hn.
  { unfold full_len. by apply Z2Nat.id. }
  assert (queue_rep (long_mem full_len) (long_queue full_len)
            (long_list full_len)) as Hrep.
  { apply long_queue_rep. by rewrite Hn. }
  assert (strlen huge_string = 4294967295) as Hlen.
  { unfold huge_string. by apply strlen_repeat. }
  split; split_and!.
  - done.
  - by eapply queue_rep_invariant.
  - by apply long_queue_overflow.
  - apply (queue_rep_invariant _ _ []), queue_rep_check_correct.
    vm_compute. reflexivity.
  - by rewrite Hlen.
  - apply q_insert_tail_negative_len. by rewrite Hlen.
Qed.

(** C3 (amended): every public operation, applied to a queue that satisfies
    the representation invariant, returns with a queue that satisfies it
    again, provided that for [q_insert_head] and [q_insert_tail] the [int]
    arithmetic does not overflow: [count] is below [INT_MAX] and the string
    has less than [INT_MAX] bytes, so that [count + 1] and [len + 1] are
    [int]s; and that [q_remove_head] is given a null buffer or a capacity
    of at least 1, with which it stores at most [bufsize] bytes. *)
Theorem operations_preserve_invariant m q l :
  queue_rep m q l →
  invariant m q ∧
  (∀ node_ok str_ok s, count q < INT_MAX → strlen s < INT_MAX →
     ∃ m' q' ok l',
       q_insert_head node_ok str_ok m (Some q) s = Some (m', Some q', ok) ∧
       queue_rep m' q' l' ∧ invariant m' q') ∧
  (∀ node_ok str_ok s, count q < INT_MAX → strlen s < INT_MAX →
     ∃ m' q' ok l',
       q_insert_tail node_ok str_ok m (Some q) s = Some (m', Some q', ok) ∧
       queue_rep m' q' l' ∧ invariant m' q') ∧
  (∀ sp bufsize, 0 ≤ bufsize ≤ SIZE_MAX → sp = None ∨ 1 ≤ bufsize →
     ∃ m' q' stored ok l',
       q_remove_head m (Some q) sp bufsize = Some (m', Some q', stored, ok) ∧
       (∀ b, stored = Some b → Z.of_nat (length b) ≤ bufsize) ∧
       queue_rep m' q' l' ∧ invariant m' q') ∧
  (∃ m' q' l',
     q_reverse m (Some q) = Some (m', Some q') ∧
     queue_rep m' q' l' ∧ invariant m' q') ∧
  (∃ m' q' l',
     q_sort m (Some q) = Some (m', Some q') ∧
     queue_rep m' q' l' ∧ invariant m' q') ∧
  q_size (Some q) = Z.of_nat (length l).
Proof.
  intros Hrep. pose proof (queue_rep_invariant _ _ _ Hrep) as Hinv.
  split_and!.
  - done.
  - intros node_ok str_ok s Hc Hs'. assert (strlen s ≤ INT_MAX) as Hs by lia.
    destruct (node_ok && str_ok) eqn:Hok.
    + apply andb_true_iff in Hok as [-> ->].
      destruct (q_insert_head_spec m q l s Hrep Hc Hs) as (m' & q' & Hrun & Hrep').
      eexists m', q', true, _. eauto using queue_rep_invariant.
    + exists m, q, false, l. by rewrite q_insert_head_fail.
  - intros node_ok str_ok s Hc Hs'. assert (strlen s ≤ INT_MAX) as Hs by lia.
    destruct (node_ok && str_ok) eqn:Hok.
    + apply andb_true_iff in Hok as [-> ->].
      destruct (q_insert_tail_spec m q l s Hrep Hc Hs) as (m' & q' & Hrun & Hrep').
      eexists m', q', true, _. eauto using queue_rep_invariant.
    + exists m, q, false, l. by rewrite q_insert_tail_fail.
  - intros sp bufsize Hb Hsp. destruct l as [|x l].
    + exists m, q, None, false, []. split_and!; [|done..].
      destruct Hrep as [[Hl _ _ _ _] _ _]. simpl in Hl.
      unfold q_remove_head. by rewrite Hl.
    + destruct (q_remove_head_spec m q x l sp bufsize Hrep Hb)
        as (m' & q' & Hrun & Hrep').
      eexists m', q', _, true, l.
      split_and!; [exact Hrun| |done|by eapply queue_rep_invariant].
      intros b Hstored. destruct sp as [a|]; [|done].
      destruct Hsp as [|Hone]; [done|]. injection Hstored as <-.
      unfold copied. rewrite bool_decide_false by lia.
      rewrite length_app, length_take. unfold strlen. simpl. lia.
  - destruct (q_reverse_spec m q l Hrep) as (m' & q' & Hrun & Hrep' & _).
    eexists m', q', _. eauto using queue_rep_invariant.
  - destruct (q_sort_spec m q l Hrep) as (m' & q' & Hrun & Hrep' & _).
    eexists m', q', _. eauto using queue_rep_invariant.
  - simpl. by destruct Hrep.
Qed.

(** The theorem at the queue ["banana"; "apple"; "cherry"], with "kiwi"
    for the insertions and a buffer of 4 bytes for the removal. *)
Lemma operations_preserve_invariant_witness :
  queue_rep fruit_mem fruit_queue fruit_list ∧
  count fruit_queue < INT_MAX ∧ strlen (bytes "kiwi") < INT_MAX ∧
  0 ≤ 4 ≤ SIZE_MAX ∧
  invariant fruit_mem fruit_queue ∧
  (∃ m' q' ok l',
     q_insert_head true true fruit_mem (Some fruit_queue) (bytes "kiwi") =
       Some (m', Some q', ok) ∧ queue_rep m' q' l' ∧ invariant m' q') ∧
  (∃ m' q' ok l',
     q_insert_tail true true fruit_mem (Some fruit_queue) (bytes "kiwi") =
       Some (m', Some q', ok) ∧ queue_rep m' q' l' ∧ invariant m' q') ∧
  (∃ m' q' stored ok l',
     q_remove_head fruit_mem (Some fruit_queue) (Some 1%positive) 4 =
       Some (m', Some q', stored, ok) ∧
     (∀ b, stored = Some b → Z.of_nat (length b) ≤ 4) ∧
     queue_rep m' q' l' ∧ invariant m' q') ∧
  (∃ m' q' l',
     q_reverse fruit_mem (Some fruit_queue) = Some (m', Some q') ∧
     queue_rep m' q' l' ∧ invariant m' q') ∧
  (∃ m' q' l',
     q_sort fruit_mem (Some fruit_queue) = Some (m', Some q') ∧
     queue_rep m' q' l' ∧ invariant m' q') ∧
  q_size (Some fruit_queue) = 3.
Proof.
  assert (queue_rep fruit_mem fruit_queue fruit_list) as Hrep.
  { apply queue_rep_check_correct. vm_compute. reflexivity. }
  assert (count fruit_queue < INT_MAX) as Hc by (vm_compute; reflexivity).
  assert (strlen (bytes "kiwi") < INT_MAX) as Hs by (vm_compute; reflexivity).
  assert (0 ≤ 4 ≤ SIZE_MAX) as Hb by (split; vm_compute; congruence).
  assert (Some 1%positive = None ∨ 1 ≤ 4) as Hsp by (right; lia).
  split; [exact Hrep|]. split; [exact Hc|]. split; [exact Hs|].
  split; [exact Hb|].
  destruct (operations_preserve_invariant _ _ _ Hrep)
    as (Hinv & Hhead & Htail & Hrem & Hrev & Hsort & Hsize).
  split; [exact Hinv|].
  split; [exact (Hhead true true (bytes "kiwi") Hc Hs)|].
  split; [exact (Htail true true (bytes "kiwi") Hc Hs)|].
  split; [exact (Hrem (Some 1%positive) 4 Hb Hsp)|].
  split; [exact Hrev|]. split; [exact Hsort|exact Hsize].
Defined.

(** C4: when an allocation inside [q_insert_head] or [q_insert_tail] fails
    (the node's, or the string's after the node's succeeded), the call
    returns [false] and the memory and the queue are exactly as before the
    call: the node that had been allocated is freed again, nothing else
    has changed. *)
Theorem insert_allocation_failure node_ok str_ok m q s :
  node_ok && str_ok = false →
  q_insert_head node_ok str_ok m q s = Some (m, q, false) ∧
  q_insert_tail node_ok str_ok m q s = Some (m, q, false).
Proof.
  intros Hok. split; [by apply q_insert_head_fail|by apply q_insert_tail_fail].
Qed.

(** The theorem at a new queue, the allocation of the string failing. *)
Lemma insert_allocation_failure_witness :
  true && false = false ∧
  q_insert_head true false empty_mem (q_new true) (bytes "abc") =
    Some (empty_mem, q_new true, false) ∧
  q_insert_tail true false empty_mem (q_new true) (bytes "abc") =
    Some (empty_mem, q_new true, false).
Proof.
  split; [reflexivity|].
  apply (insert_allocation_failure true false empty_mem (q_new true)
           (bytes "abc")).
  reflexivity.
Defined.

(** C5, at the failing input: the queue holds "abc" and [q_remove_head] is
    given a non-null buffer of capacity 0; the call stores the 3 bytes of
    the string and a terminator, 4 bytes, where the capacity allows none. *)
Theorem remove_head_overruns_capacity_zero :
  ∃ m' q' stored,
    q_remove_head (mem_of ["abc"]%string) (Some (handle_of ["abc"]%string))
      (Some 1%positive) 0 = Some (m', q', Some stored, true) ∧
    stored = bytes "abc" ++ ["000"%byte] ∧
    length stored = 4%nat ∧ 0 < Z.of_nat (length stored).
Proof.
  eexists _, _, _. split_and!; [vm_compute; reflexivity|done..].
Qed.

(** C6: for every queue, [q_reverse] leaves [count] unchanged and makes the
    element order the reversal of the order before, the former head node
    becomes the last node and the former last node the head; reversing
    twice restores the original order. *)
Theorem reverse_reverses m q l :
  queue_rep m q l →
  ∃ m' q',
    q_reverse m (Some q) = Some (m', Some q') ∧
    queue_rep m' q' (reverse l) ∧
    elements m' q' = reverse (elements m q) ∧
    count q' = count q ∧ q_size (Some q') = q_size (Some q) ∧
    head q' = last_element q ∧ last_element q' = head q ∧
    ∃ m'' q'',
      q_reverse m' (Some q') = Some (m'', Some q'') ∧
      queue_rep m'' q'' l ∧ elements m'' q'' = elements m q ∧
      q_size (Some q'') = q_size (Some q).
Proof.
  intros Hrep.
  destruct (q_reverse_spec m q l Hrep)
    as (m' & q' & Hrun & Hrep' & Hc & Hh & Ht).
  destruct (q_reverse_spec m' q' _ Hrep')
    as (m'' & q'' & Hrun' & Hrep'' & Hc' & _ & _).
  rewrite reverse_involutive in Hrep''.
  exists m', q'. split_and!; [done|done| |done|done|done|done|].
  - rewrite (elements_rep _ _ _ Hrep), (elements_rep _ _ _ Hrep').
    by rewrite fmap_reverse.
  - exists m'', q''. split_and!; [done|done| |].
    + by rewrite (elements_rep _ _ _ Hrep), (elements_rep _ _ _ Hrep'').
    + simpl. congruence.
Qed.

(** The theorem at the queue ["banana"; "apple"; "cherry"]. *)
Lemma reverse_reverses_witness :
  queue_rep fruit_mem fruit_queue fruit_list ∧
  ∃ m' q',
    q_reverse fruit_mem (Some fruit_queue) = Some (m', Some q') ∧
    queue_rep m' q' (reverse fruit_list) ∧
    elements m' q' = reverse (elements fruit_mem fruit_queue).
Proof.
  assert (queue_rep fruit_mem fruit_queue fruit_list) as Hrep.
  { apply queue_rep_check_correct. vm_compute. reflexivity. }
  split; [exact Hrep|].
  destruct (reverse_reverses _ _ _ Hrep) as (m' & q' & Hrun & Hrep' & Hel & _).
  exists m', q'. split_and!; assumption.
Defined.

(** C7, counterexample: the queue holds "x"; after [q_insert_tail] of "a"
    and of "b" the next two [q_remove_head] calls yield "x" and "a". *)
Lemma fifo_fails_on_non_empty_queue :
  ∃ stored1 stored2,
    ('(m1, q1, ok1) ← q_insert_tail true true (mem_of ["x"]%string)
                        (Some (handle_of ["x"]%string)) (bytes "a");
     '(m2, q2, ok2) ← q_insert_tail true true m1 q1 (bytes "b");
     '(m3, q3, st1, r1) ← q_remove_head m2 q2 (Some 1%positive) 100;
     '(m4, q4, st2, r2) ← q_remove_head m3 q3 (Some 1%positive) 100;
     Some (ok1, ok2, r1, r2, st1, st2)) =
      Some (true, true, true, true, Some stored1, Some stored2) ∧
    stored1 = bytes "x" ++ ["000"%byte] ∧
    stored2 = bytes "a" ++ ["000"%byte] ∧
    stored1 ≠ bytes "a" ++ ["000"%byte] ∧
    stored2 ≠ bytes "b" ++ ["000"%byte].
Proof.
  eexists _, _. split_and!; [vm_compute; reflexivity|done..].
Qed.

(** C7 (amended): tail insertion is first-in-first-out with respect to head
    removal.  For every queue and strings [s1], [s2] of less than [INT_MAX]
    bytes, [q_insert_tail] of [s1] and then of [s2] succeed; once the
    elements that were in the queue before have been removed (none for an
    empty queue), two successive [q_remove_head] calls with buffers larger
    than the strings succeed and yield copies of [s1] and then of [s2]. *)
Theorem tail_insert_fifo m q l s1 s2 sp1 sp2 bufsize1 bufsize2 :
  queue_rep m q l →
  strlen s1 < INT_MAX → strlen s2 < INT_MAX →
  strlen s1 < bufsize1 ≤ SIZE_MAX → strlen s2 < bufsize2 ≤ SIZE_MAX →
  ∃ m1 q1 m2 q2 m3 q3 m4 q4 m5 q5,
    q_insert_tail true true m (Some q) s1 = Some (m1, Some q1, true) ∧
    q_insert_tail true true m1 (Some q1) s2 = Some (m2, Some q2, true) ∧
    drain (length l) m2 (Some q2) = Some (m3, Some q3) ∧
    q_remove_head m3 (Some q3) (Some sp1) bufsize1 =
      Some (m4, Some q4, Some (s1 ++ ["000"%byte]), true) ∧
    q_remove_head m4 (Some q4) (Some sp2) bufsize2 =
      Some (m5, Some q5, Some (s2 ++ ["000"%byte]), true).
Proof.
  intros [Hrep _ _] Hs1' Hs2' Hb1 Hb2.
  assert (strlen s1 ≤ INT_MAX) as Hs1 by lia.
  assert (strlen s2 ≤ INT_MAX) as Hs2 by lia.
  destruct (q_insert_tail_chain m q l s1 Hrep Hs1)
    as (m1 & q1 & Hrun1 & Hrep1 & _).
  destruct (q_insert_tail_chain m1 q1 _ s2 Hrep1 Hs2)
    as (m2 & q2 & Hrun2 & Hrep2 & _).
  rewrite <-app_assoc in Hrep2.
  destruct (drain_spec l m2 q2 _ Hrep2) as (m3 & q3 & Hrun3 & Hrep3).
  destruct (remove_head_whole m3 q3 _ _ sp1 bufsize1 Hrep3)
    as (m4 & q4 & Hrun4 & Hrep4); [done|].
  destruct (remove_head_whole m4 q4 _ _ sp2 bufsize2 Hrep4)
    as (m5 & q5 & Hrun5 & Hrep5); [done|].
  by exists m1, q1, m2, q2, m3, q3, m4, q4, m5, q5.
Qed.

(** The theorem at the queue ["banana"; "apple"; "cherry"] with "a" and
    "b" and buffers of 2 bytes: the three fruits are removed first, then
    come "a" and "b". *)
Lemma tail_insert_fifo_witness :
  queue_rep fruit_mem fruit_queue fruit_list ∧
  ∃ m1 q1 m2 q2 m3 q3 m4 q4 m5 q5,
    q_insert_tail true true fruit_mem (Some fruit_queue) (bytes "a") =
      Some (m1, Some q1, true) ∧
    q_insert_tail true true m1 (Some q1) (bytes "b") =
      Some (m2, Some q2, true) ∧
    drain 3 m2 (Some q2) = Some (m3, Some q3) ∧
    q_remove_head m3 (Some q3) (Some 1%positive) 2 =
      Some (m4, Some q4, Some (bytes "a" ++ ["000"%byte]), true) ∧
    q_remove_head m4 (Some q4) (Some 1%positive) 2 =
      Some (m5, Some q5, Some (bytes "b" ++ ["000"%byte]), true).
Proof.
  assert (queue_rep fruit_mem fruit_queue fruit_list) as Hrep.
  { apply queue_rep_check_correct. vm_compute. reflexivity. }
  split; [exact Hrep|].
  exact (tail_insert_fifo fruit_mem fruit_queue fruit_list (bytes "a")
           (bytes "b") 1%positive 1%positive 2 2 Hrep
           ltac:(vm_compute; reflexivity) ltac:(vm_compute; reflexivity)
           ltac:(split; vm_compute; congruence)
           ltac:(split; vm_compute; congruence)).
Defined.

(** C8: [q_remove_head] on a null handle or on an empty queue returns
    [false], leaves memory, [head], [last_element] and [count] as they
    were, and stores nothing through [sp]; the size of the empty queue is
    still 0. *)
Theorem remove_head_empty m q sp bufsize :
  q = None ∨ (∃ q0, q = Some q0 ∧ head q0 = None) →
  q_remove_head m q sp bufsize = Some (m, q, None, false) ∧
  (∀ q0, q = Some q0 → queue_rep m q0 [] → q_size q = 0).
Proof.
  intros [->|(q0 & -> & Hh)].
  - split; [done|]. by intros.
  - split.
    + unfold q_remove_head. by rewrite Hh.
    + intros ? [= <-] [_ Hc _]. simpl. by rewrite Hc.
Qed.

(** The theorem at the empty queue. *)
Lemma remove_head_empty_witness :
  (Some (Queue None None 0) = None ∨
   ∃ q0, Some (Queue None None 0) = Some q0 ∧ head q0 = None) ∧
  queue_rep empty_mem (Queue None None 0) [] ∧
  q_remove_head empty_mem (Some (Queue None None 0)) (Some 1%positive) 8 =
    Some (empty_mem, Some (Queue None None 0), None, false) ∧
  q_size (Some (Queue None None 0)) = 0.
Proof.
  assert (Some (Queue None None 0) = None ∨
          ∃ q0, Some (Queue None None 0) = Some q0 ∧ head q0 = None) as H.
  { right. exists (Queue None None 0). split; reflexivity. }
  assert (queue_rep empty_mem (Queue None None 0) []) as Hrep.
  { apply queue_rep_check_correct. vm_compute. reflexivity. }
  split; [exact H|]. split; [exact Hrep|].
  destruct (remove_head_empty empty_mem (Some (Queue None None 0))
              (Some 1%positive) 8 H) as [Hrun Hsize].
  split; [exact Hrun|]. exact (Hsize _ eq_refl Hrep).
Defined.

(** C9: [q_sort] is idempotent on the stored strings: for every queue, the
    sequence of string values after two sorts is the sequence after one. *)
Theorem sort_idempotent m q l :
  queue_rep m q l →
  ∃ m1 q1 l1 m2 q2 l2,
    q_sort m (Some q) = Some (m1, Some q1) ∧ queue_rep m1 q1 l1 ∧
    q_sort m1 (Some q1) = Some (m2, Some q2) ∧ queue_rep m2 q2 l2 ∧
    values l2 = values l1 ∧ (elements m2 q2).*2 = (elements m1 q1).*2.
Proof.
  intros Hrep.
  destruct (q_sort_spec m q l Hrep) as (m1 & q1 & Hrun1 & Hrep1 & _).
  destruct (q_sort_spec m1 q1 _ Hrep1) as (m2 & q2 & Hrun2 & Hrep2 & _).
  set (l1 := sort_list (S (chain_fuel m)) l) in *.
  set (l2 := sort_list (S (chain_fuel m1)) l1) in *.
  assert (values l2 = values l1) as Hvals.
  { apply (Sorted_unique str_le).
    - apply values_sorted.
      destruct Hrep1 as [[Hl Hn _ _ _] _ _].
      pose proof (lseg_length_fuel _ _ _ _ Hl Hn). lia.
    - apply values_sorted.
      destruct Hrep as [[Hl Hn _ _ _] _ _].
      pose proof (lseg_length_fuel _ _ _ _ Hl Hn). lia.
    - unfold values, l2. by rewrite sort_list_perm. }
  exists m1, q1, l1, m2, q2, l2. split_and!; [done..|].
  rewrite (elements_rep _ _ _ Hrep1), (elements_rep _ _ _ Hrep2).
  rewrite <-!list_fmap_compose. exact Hvals.
Qed.

(** The theorem at the queue ["banana"; "apple"; "cherry"]. *)
Lemma sort_idempotent_witness :
  queue_rep fruit_mem fruit_queue fruit_list ∧
  ∃ m1 q1 m2 q2,
    q_sort fruit_mem (Some fruit_queue) = Some (m1, Some q1) ∧
    q_sort m1 (Some q1) = Some (m2, Some q2) ∧
    (elements m2 q2).*2 = (elements m1 q1).*2.
Proof.
  assert (queue_rep fruit_mem fruit_queue fruit_list) as Hrep.
  { apply queue_rep_check_correct. vm_compute. reflexivity. }
  split; [exact Hrep|].
  destruct (sort_idempotent _ _ _ Hrep)
    as (m1 & q1 & l1 & m2 & q2 & l2 & Hrun1 & _ & Hrun2 & _ & _ & Hel).
  exists m1, q1, m2, q2. split_and!; assumption.
Defined.

(** C10: [q_remove_head] on a non-empty queue with a non-null [sp] and
    [bufsize = 0]: the unsigned [bufsize - 1] is [SIZE_MAX], the bound does
    not apply, and the whole string and its terminator, [strlen + 1]
    bytes, are stored through [sp]: more than the capacity 0. *)
Theorem remove_head_capacity_zero m q x l sp :
  queue_rep m q (x :: l) →
  to_size_t (0 - 1) = SIZE_MAX ∧
  ∃ m' q' stored,
    q_remove_head m (Some q) (Some sp) 0 = Some (m', Some q', Some stored, true) ∧
    stored = val x ++ ["000"%byte] ∧
    Z.of_nat (length stored) = strlen (val x) + 1 ∧
    0 < Z.of_nat (length stored).
Proof.
  intros Hrep. split; [done|].
  destruct (q_remove_head_spec m q x l (Some sp) 0 Hrep) as (m' & q' & Hrun & _).
  { unfold SIZE_MAX. lia. }
  exists m', q', (val x ++ ["000"%byte]).
  split_and!; [|done|..].
  - rewrite Hrun. do 4 f_equal. unfold copied. simpl.
    by rewrite take_strlen.
  - rewrite length_app. unfold strlen. simpl. lia.
  - rewrite length_app. simpl. lia.
Qed.

(** The theorem at the queue ["banana"; "apple"; "cherry"]. *)
Lemma remove_head_capacity_zero_witness :
  queue_rep fruit_mem fruit_queue fruit_list ∧
  ∃ m' q',
    q_remove_head fruit_mem (Some fruit_queue) (Some 1%positive) 0 =
      Some (m', Some q', Some (bytes "banana" ++ ["000"%byte]), true).
Proof.
  assert (queue_rep fruit_mem fruit_queue fruit_list) as Hrep.
  { apply queue_rep_check_correct. vm_compute. reflexivity. }
  split; [exact Hrep|].
  destruct (remove_head_capacity_zero fruit_mem fruit_queue _ _ 1%positive Hrep)
    as (_ & m' & q' & stored & Hrun & -> & _).
  exists m', q'. exact Hrun.
Defined.

(** ** Further properties of the operations *)

(** X1: [q_free] on a queue releases the node and the string block of
    every element and nothing else: afterwards no block of the queue is
    allocated and every other block of the memory is as it was.  This does
    not depend on [count].  On a null handle [q_free] does nothing. *)
Theorem q_free_releases m q l :
  chain_rep m q l →
  ∃ m',
    q_free m (Some q) = Some m' ∧
    (∀ a, eles m' !! a = if decide (a ∈ nodes l) then None else eles m !! a) ∧
    (∀ v, strs m' !! v =
            if decide (v ∈ str <$> l) then None else strs m !! v) ∧
    q_free m None = Some m.
Proof.
  intros Hrep. exists (rest m l). split_and!.
  - by apply q_free_chain.
  - apply rest_eles.
  - apply rest_strs.
  - done.
Qed.

(** The theorem at the queue ["banana"; "apple"; "cherry"], which is all
    that its memory holds. *)
Lemma q_free_releases_witness :
  chain_rep fruit_mem fruit_queue fruit_list ∧
  ∃ m',
    q_free fruit_mem (Some fruit_queue) = Some m' ∧
    (∀ a, eles m' !! a =
            if decide (a ∈ nodes fruit_list) then None
            else eles fruit_mem !! a) ∧
    (∀ v, strs m' !! v =
            if decide (v ∈ str <$> fruit_list) then None
            else strs fruit_mem !! v) ∧
    q_free fruit_mem None = Some fruit_mem.
Proof.
  assert (queue_rep fruit_mem fruit_queue fruit_list) as Hrep.
  { apply queue_rep_check_correct. vm_compute. reflexivity. }
  split; [exact (rep_shape _ _ _ Hrep)|].
  exact (q_free_releases _ _ _ (rep_shape _ _ _ Hrep)).
Defined.

(** X2: a successful [q_insert_head] followed by [q_remove_head] with a
    buffer that holds the string and its terminator is a round trip: the
    removal stores the inserted string, NUL-terminated, and gives back the
    memory and the queue ([head], [last_element], [count]) exactly as they
    were before the insertion. *)
Theorem insert_head_remove_head_round_trip m q l s sp bufsize :
  queue_rep m q l → count q < INT_MAX → strlen s < INT_MAX →
  strlen s < bufsize ≤ SIZE_MAX →
  ∃ m1 q1,
    q_insert_head true true m (Some q) s = Some (m1, Some q1, true) ∧
    q_remove_head m1 (Some q1) (Some sp) bufsize =
      Some (m, Some q, Some (s ++ ["000"%byte]), true).
Proof.
  intros [[Hl _ _ Hlast _] Hc Hci] Hlt Hs' Hb.
  assert (strlen s ≤ INT_MAX) as Hs by lia.
  assert (0 ≤ strlen s) by (unfold strlen; lia).
  rewrite (q_insert_head_eq m q s Hs). eexists _, _. split; [done|].
  rewrite (q_remove_head_eq _ _ (inserted_elem m s) (head q) (Some sp) bufsize);
    [|done|cbn; by rewrite lookup_insert_eq|cbn; by rewrite lookup_insert_eq
     |done|lia].
  rewrite removed_inserted. cbn [val inserted_elem].
  unfold copied. rewrite bool_decide_false by lia.
  rewrite Z.min_l by lia. rewrite take_strlen. do 3 f_equal.
  unfold removed_queue. cbn [count last_element].
  rewrite (to_int_id (count q + 1)) by (unfold INT_MIN; lia).
  replace (count q + 1 - 1) with (count q) by lia.
  rewrite to_int_id by (unfold INT_MIN; lia).
  destruct q as [h t c]. cbn [head last_element count] in *.
  destruct h as [h|]; [done|].
  apply lseg_end_None in Hl. subst l. by rewrite Hlast.
Qed.

(** The theorem at the queue ["banana"; "apple"; "cherry"] with "kiwi" and
    a buffer of 5 bytes. *)
Lemma insert_head_remove_head_round_trip_witness :
  queue_rep fruit_mem fruit_queue fruit_list ∧
  ∃ m1 q1,
    q_insert_head true true fruit_mem (Some fruit_queue) (bytes "kiwi") =
      Some (m1, Some q1, true) ∧
    q_remove_head m1 (Some q1) (Some 1%positive) 5 =
      Some (fruit_mem, Some fruit_queue,
            Some (bytes "kiwi" ++ ["000"%byte]), true).
Proof.
  assert (queue_rep fruit_mem fruit_queue fruit_list) as Hrep.
  { apply queue_rep_check_correct. vm_compute. reflexivity. }
  split; [exact Hrep|].
  apply (insert_head_remove_head_round_trip _ _ _ (bytes "kiwi") 1%positive 5
           Hrep); vm_compute; try split; congruence.
Defined.

(** X3: with a capacity of at least 1, [q_remove_head] stores the first
    [min(strlen, bufsize - 1)] bytes of the head's string and a terminator,
    never more than [bufsize] bytes; the whole string when it fits.  The
    rest of the queue stays a well-formed queue. *)
Theorem remove_head_within_capacity m q x l sp bufsize :
  queue_rep m q (x :: l) → 1 ≤ bufsize ≤ SIZE_MAX →
  ∃ m' q' stored,
    q_remove_head m (Some q) (Some sp) bufsize =
      Some (m', Some q', Some stored, true) ∧
    stored = take (Z.to_nat (bufsize - 1)) (val x) ++ ["000"%byte] ∧
    Z.of_nat (length stored) ≤ bufsize ∧
    (strlen (val x) < bufsize → stored = val x ++ ["000"%byte]) ∧
    queue_rep m' q' l.
Proof.
  intros Hrep Hb.
  destruct (q_remove_head_spec m q x l (Some sp) bufsize Hrep)
    as (m' & q' & Hrun & Hrep'); [lia|].
  unfold copied in Hrun. rewrite bool_decide_false in Hrun by lia.
  assert (take (Z.to_nat (Z.min (strlen (val x)) (bufsize - 1))) (val x) =
          take (Z.to_nat (bufsize - 1)) (val x)) as Htake.
  { unfold strlen. destruct (decide (Z.of_nat (length (val x)) ≤ bufsize - 1)).
    - rewrite Z.min_l, Nat2Z.id by done. rewrite !take_ge; [done|lia|lia].
    - by rewrite Z.min_r by lia. }
  rewrite Htake in Hrun.
  eexists m', q', _. split_and!; [done|done| | |done].
  - rewrite length_app, length_take. simpl. lia.
  - intros Hfit. rewrite take_ge; [done|]. unfold strlen in Hfit. lia.
Qed.

(** The theorem at the queue ["banana"; "apple"; "cherry"] with a buffer
    of 4 bytes: "ban" and the terminator are stored. *)
Lemma remove_head_within_capacity_witness :
  queue_rep fruit_mem fruit_queue fruit_list ∧
  ∃ m' q' stored,
    q_remove_head fruit_mem (Some fruit_queue) (Some 1%positive) 4 =
      Some (m', Some q', Some stored, true) ∧
    stored = bytes "ban" ++ ["000"%byte].
Proof.
  assert (queue_rep fruit_mem fruit_queue fruit_list) as Hrep.
  { apply queue_rep_check_correct. vm_compute. reflexivity. }
  split; [exact Hrep|].
  destruct (remove_head_within_capacity fruit_mem fruit_queue _ _ 1%positive 4
              Hrep) as (m' & q' & stored & Hrun & Hstored & _).
  { split; vm_compute; congruence. }
  exists m', q', stored. split; [exact Hrun|exact Hstored].
Defined.

(** X4: [q_reverse] allocates and frees nothing and moves no string: the
    string blocks are the same, the allocated nodes are the same, every
    node keeps its [value] pointer, and nodes outside the queue are not
    written at all. *)
Theorem q_reverse_only_relinks m q l :
  queue_rep m q l →
  ∃ m' q',
    q_reverse m (Some q) = Some (m', Some q') ∧
    strs m' = strs m ∧
    dom (eles m') = dom (eles m) ∧
    (∀ a, value <$> eles m' !! a = value <$> eles m !! a) ∧
    (∀ a, a ∉ (elements m q).*1 → eles m' !! a = eles m !! a) ∧
    (elements m' q').*1 = reverse (elements m q).*1.
Proof.
  intros Hrep.
  destruct (q_reverse_spec m q l Hrep) as (m' & q' & Hrun & Hrep' & _).
  destruct (q_reverse_relinked m q l Hrep) as (m1 & q1 & Hrun1 & Hrel).
  rewrite Hrun in Hrun1. injection Hrun1 as <- _.
  exists m', q'. rewrite (elements_nodes _ _ _ Hrep), (elements_nodes _ _ _ Hrep').
  destruct Hrel as [Hs Hv Ho].
  split_and!; [done|done| |done|done|apply fmap_reverse].
  by apply (relinked_dom (nodes l)).
Qed.

Lemma q_reverse_only_relinks_witness :
  queue_rep fruit_mem fruit_queue fruit_list ∧
  ∃ m' q',
    q_reverse fruit_mem (Some fruit_queue) = Some (m', Some q') ∧
    strs m' = strs fruit_mem ∧
    dom (eles m') = dom (eles fruit_mem).
Proof.
  assert (queue_rep fruit_mem fruit_queue fruit_list) as Hrep.
  { apply queue_rep_check_correct. vm_compute. reflexivity. }
  split; [exact Hrep|].
  destruct (q_reverse_only_relinks _ _ _ Hrep)
    as (m' & q' & Hrun & Hs & Hd & _).
  exists m', q'. split_and!; assumption.
Defined.

(** X5: [q_sort] allocates and frees nothing and moves no string: it only
    rewrites [next] fields of the queue's own nodes, so the string blocks
    and the allocated nodes are the same, every node keeps its [value]
    pointer, nodes outside the queue are not written, and the queue's
    nodes are the same ones in another order. *)
Theorem q_sort_only_relinks m q l :
  queue_rep m q l →
  ∃ m' q',
    q_sort m (Some q) = Some (m', Some q') ∧
    strs m' = strs m ∧
    dom (eles m') = dom (eles m) ∧
    (∀ a, value <$> eles m' !! a = value <$> eles m !! a) ∧
    (∀ a, a ∉ (elements m q).*1 → eles m' !! a = eles m !! a) ∧
    (elements m' q').*1 ≡ₚ (elements m q).*1.
Proof.
  intros Hrep.
  destruct (q_sort_spec m q l Hrep) as (m' & q' & Hrun & Hrep' & _).
  destruct (q_sort_relinked m q l Hrep) as (m1 & q1 & Hrun1 & Hrel).
  rewrite Hrun in Hrun1. injection Hrun1 as <- _.
  exists m', q'. rewrite (elements_nodes _ _ _ Hrep), (elements_nodes _ _ _ Hrep').
  destruct Hrel as [Hs Hv Ho].
  split_and!; [done|done| |done|done|apply nodes_sort_list].
  by apply (relinked_dom (nodes l)).
Qed.

Lemma q_sort_only_relinks_witness :
  queue_rep fruit_mem fruit_queue fruit_list ∧
  ∃ m' q',
    q_sort fruit_mem (Some fruit_queue) = Some (m', Some q') ∧
    strs m' = strs fruit_mem ∧
    dom (eles m') = dom (eles fruit_mem).
Proof.
  assert (queue_rep fruit_mem fruit_queue fruit_list) as Hrep.
  { apply queue_rep_check_correct. vm_compute. reflexivity. }
  split; [exact Hrep|].
  destruct (q_sort_only_relinks _ _ _ Hrep)
    as (m' & q' & Hrun & Hs & Hd & _).
  exists m', q'. split_and!; assumption.
Defined.

(** X6: the queue implements a list of strings.  Whatever calls of
    [q_insert_head], [q_insert_tail] (with any allocation outcomes),
    [q_remove_head], [q_reverse] and [q_sort] are made one after the other
    on a well-formed queue, every call returns, the strings found by a
    traversal afterwards are those of the list model (cons, append, tail,
    reverse, the ascending arrangement), [q_size] is their number and the
    invariants hold; this as long as the number of elements cannot pass
    [INT_MAX], the strings have less than [INT_MAX] bytes and every
    [q_remove_head] is given a null buffer or a capacity of at least 1. *)
Theorem operations_refine_list_model m q l ops :
  queue_rep m q l → Forall op_ok ops →
  Z.of_nat (length l + length ops) ≤ INT_MAX →
  ∃ m' q',
    run ops m (Some q) = Some (m', Some q') ∧
    invariant m' q' ∧
    (elements m' q').*2 = model ops (elements m q).*2 ∧
    q_size (Some q') = Z.of_nat (length (model ops (elements m q).*2)).
Proof.
  intros Hrep Hok Hlen.
  destruct (run_spec ops m q l Hrep Hok Hlen)
    as (m' & q' & l' & Hrun & Hrep' & Hv & _).
  exists m', q'.
  rewrite (elements_values _ _ _ Hrep), (elements_values _ _ _ Hrep'), <-Hv.
  split_and!; [done|by eapply queue_rep_invariant|done|].
  destruct Hrep' as [_ Hc _]. cbn [q_size]. rewrite Hc.
  unfold values. by rewrite length_fmap.
Qed.

(** The theorem at the queue ["banana"; "apple"; "cherry"] and five
    calls, one of them with a failing allocation. *)
Lemma operations_refine_list_model_witness :
  queue_rep fruit_mem fruit_queue fruit_list ∧
  ∃ m' q',
    run [InsertHead true true (bytes "kiwi"); Sort;
         RemoveHead (Some 1%positive) 3;
         InsertTail true false (bytes "fig"); Reverse]
        fruit_mem (Some fruit_queue) = Some (m', Some q') ∧
    (elements m' q').*2 = bytes <$> ["kiwi"; "cherry"; "banana"]%string ∧
    q_size (Some q') = 3.
Proof.
  assert (queue_rep fruit_mem fruit_queue fruit_list) as Hrep.
  { apply queue_rep_check_correct. vm_compute. reflexivity. }
  split; [exact Hrep|].
  destruct (operations_refine_list_model fruit_mem fruit_queue fruit_list
              [InsertHead true true (bytes "kiwi"); Sort;
               RemoveHead (Some 1%positive) 3;
               InsertTail true false (bytes "fig"); Reverse] Hrep)
    as (m' & q' & Hrun & _ & Hv & Hsize).
  { repeat constructor; vm_compute; congruence. }
  { vm_compute. congruence. }
  exists m', q'. split; [exact Hrun|]. split.
  - rewrite Hv. vm_compute. reflexivity.
  - rewrite Hsize. vm_compute. reflexivity.
Defined.



(** X8: removing as many times as the queue has elements, with a buffer
    that holds each string and its terminator, stores the strings in queue
    order, each NUL-terminated, frees exactly the blocks of the queue and
    leaves the queue as [q_new] makes it ([head] and [last_element] null,
    [count] 0); one more removal returns [false]. *)
Theorem remove_all_yields_strings_in_order m q l sp bufsize :
  queue_rep m q l →
  Forall (λ x, strlen (val x) < bufsize) l → bufsize ≤ SIZE_MAX →
  ∃ m',
    remove_all (length l) m (Some q) sp bufsize =
      Some (m', q_new true, (λ s, s ++ ["000"%byte]) <$> (elements m q).*2) ∧
    q_free m (Some q) = Some m' ∧
    q_remove_head m' (q_new true) (Some sp) bufsize =
      Some (m', q_new true, None, false).
Proof.
  intros Hrep Hlen Hb. exists (rest m l).
  rewrite (remove_all_spec sp bufsize l m q Hrep Hlen Hb).
  rewrite (elements_values _ _ _ Hrep). unfold values.
  rewrite <-list_fmap_compose. split_and!; [done| |done].
  apply q_free_chain, Hrep.
Qed.

Lemma remove_all_yields_strings_in_order_witness :
  queue_rep fruit_mem fruit_queue fruit_list ∧
  remove_all 3 fruit_mem (Some fruit_queue) 1%positive 7 =
    Some (empty_mem, q_new true,
          (λ s, s ++ ["000"%byte]) <$>
            (bytes <$> ["banana"; "apple"; "cherry"]%string)).
Proof.
  assert (queue_rep fruit_mem fruit_queue fruit_list) as Hrep.
  { apply queue_rep_check_correct. vm_compute. reflexivity. }
  split; [exact Hrep|].
  destruct (remove_all_yields_strings_in_order fruit_mem fruit_queue fruit_list
              1%positive 7 Hrep) as (m' & Hrun & Hfree & _).
  { repeat constructor; vm_compute; congruence. }
  { vm_compute. congruence. }
  change (length fruit_list) with 3%nat in Hrun. rewrite Hrun.
  assert (Some m' = Some empty_mem) as [= ->].
  { rewrite <-Hfree. vm_compute. reflexivity. }
  vm_compute. reflexivity.
Defined.





(** X11: [q_insert_head] puts the new string in front and leaves the
    elements that were there as they were: a traversal afterwards finds
    the new node with a copy of [s] and then the same nodes with the same
    strings; the memory has exactly two blocks more, at addresses that
    were not allocated, and no old block is written; [q_size] is one
    more. *)
Theorem insert_head_prepends m q l s :
  queue_rep m q l → count q < INT_MAX → strlen s < INT_MAX →
  ∃ m' q' a v,
    q_insert_head true true m (Some q) s = Some (m', Some q', true) ∧
    eles m !! a = None ∧ strs m !! v = None ∧
    eles m' = <[a := Ele (Some v) (head q)]> (eles m) ∧
    strs m' = <[v := s]> (strs m) ∧
    elements m' q' = (a, s) :: elements m q ∧
    head q' = Some a ∧
    q_size (Some q') = q_size (Some q) + 1.
Proof.
  intros Hrep Hlt Hs'. assert (strlen s ≤ INT_MAX) as Hs by lia.
  destruct (q_insert_head_spec m q l s Hrep Hlt Hs) as (m' & q' & Hrun & Hrep').
  destruct (inserted_elem_fresh m s) as [Ha Hb].
  exists m', q', (node (inserted_elem m s)), (str (inserted_elem m s)).
  rewrite (elements_rep _ _ _ Hrep), (elements_rep _ _ _ Hrep').
  pose proof Hrun as Hrun'.
  rewrite (q_insert_head_eq m q s Hs) in Hrun'. injection Hrun' as <- <-.
  split_and!; [done..|].
  cbn [q_size count]. apply to_int_id.
  destruct Hrep as [_ Hc _]. unfold INT_MIN. lia.
Qed.

Lemma insert_head_prepends_witness :
  queue_rep fruit_mem fruit_queue fruit_list ∧
  ∃ m' q' a v,
    q_insert_head true true fruit_mem (Some fruit_queue) (bytes "kiwi") =
      Some (m', Some q', true) ∧
    elements m' q' = (a, bytes "kiwi") :: elements fruit_mem fruit_queue ∧
    strs m' = <[v := bytes "kiwi"]> (strs fruit_mem).
Proof.
  assert (queue_rep fruit_mem fruit_queue fruit_list) as Hrep.
  { apply queue_rep_check_correct. vm_compute. reflexivity. }
  split; [exact Hrep|].
  destruct (insert_head_prepends _ _ _ (bytes "kiwi") Hrep)
    as (m' & q' & a & v & Hrun & _ & _ & _ & Hs & He & _).
  { vm_compute. reflexivity. }
  { vm_compute. congruence. }
  exists m', q', a, v. split_and!; assumption.
Defined.

(** X12: [q_insert_tail] puts the new string at the end and leaves the
    elements that were there in place: a traversal afterwards finds the
    same nodes with the same strings and then the new node with a copy of
    [s]; the new node and the new string lie at addresses that were not
    allocated, no old string is written, and the only old node written is
    the one that was last; [q_size] is one more. *)
Theorem insert_tail_appends m q l s :
  queue_rep m q l → count q < INT_MAX → strlen s < INT_MAX →
  ∃ m' q' a v,
    q_insert_tail true true m (Some q) s = Some (m', Some q', true) ∧
    eles m !! a = None ∧ strs m !! v = None ∧
    eles m' !! a = Some (Ele (Some v) None) ∧
    (∀ b, b ≠ a → last_element q ≠ Some b → eles m' !! b = eles m !! b) ∧
    strs m' = <[v := s]> (strs m) ∧
    elements m' q' = elements m q ++ [(a, s)] ∧
    last_element q' = Some a ∧
    q_size (Some q') = q_size (Some q) + 1.
Proof.
  intros Hrep Hlt Hs'. assert (strlen s ≤ INT_MAX) as Hs by lia.
  destruct (q_insert_tail_spec m q l s Hrep Hlt Hs) as (m' & q' & Hrun & Hrep').
  destruct (q_insert_tail_relinked m q l s (rep_shape _ _ _ Hrep) Hs)
    as (m1 & q1 & Hrun1 & [Hrs _ Hro]).
  rewrite Hrun in Hrun1. injection Hrun1 as <- _.
  destruct (inserted_elem_fresh m s) as [Ha Hb].
  set (x := inserted_elem m s) in *.
  exists m', q', (node x), (str x).
  rewrite (elements_rep _ _ _ Hrep), (elements_rep _ _ _ Hrep'), fmap_app.
  pose proof Hrep' as [[Hl' _ _ Hlast' _] Hc' _].
  apply lseg_snoc in Hl' as (r & _ & _ & _ & He').
  split_and!; [done|done|done|done| |done|done| |].
  - intros b Hba Hbl. rewrite Hro.
    + cbn. by rewrite lookup_insert_ne.
    + destruct (last_element q) as [t|]; [|apply not_elem_of_nil].
      intros ->%list_elem_of_singleton. done.
  - by rewrite Hlast', last_snoc.
  - cbn [q_size]. rewrite Hc', length_app. destruct Hrep as [_ -> _].
    simpl. lia.
Qed.

Lemma insert_tail_appends_witness :
  queue_rep fruit_mem fruit_queue fruit_list ∧
  ∃ m' q' a v,
    q_insert_tail true true fruit_mem (Some fruit_queue) (bytes "kiwi") =
      Some (m', Some q', true) ∧
    elements m' q' = elements fruit_mem fruit_queue ++ [(a, bytes "kiwi")] ∧
    strs m' = <[v := bytes "kiwi"]> (strs fruit_mem).
Proof.
  assert (queue_rep fruit_mem fruit_queue fruit_list) as Hrep.
  { apply queue_rep_check_correct. vm_compute. reflexivity. }
  split; [exact Hrep|].
  destruct (insert_tail_appends _ _ _ (bytes "kiwi") Hrep)
    as (m' & q' & a & v & Hrun & _ & _ & _ & _ & Hs & He & _).
  { vm_compute. reflexivity. }
  { vm_compute. congruence. }
  exists m', q', a, v. split_and!; assumption.
Defined.

(** X13: the strings after [q_sort] depend only on which strings the queue
    holds, not on their order or their nodes: they are the ascending
    arrangement of the strings before.  Two queues holding the same
    strings in any order give the same sequence, and a queue whose
    strings are already ascending keeps its sequence. *)
Theorem sort_result_depends_on_strings_only m1 q1 l1 m2 q2 l2 :
  queue_rep m1 q1 l1 → queue_rep m2 q2 l2 →
  (elements m1 q1).*2 ≡ₚ (elements m2 q2).*2 →
  ∃ m1' q1' m2' q2',
    q_sort m1 (Some q1) = Some (m1', Some q1') ∧
    q_sort m2 (Some q2) = Some (m2', Some q2') ∧
    (elements m1' q1').*2 = merge_sort str_le (elements m1 q1).*2 ∧
    (elements m1' q1').*2 = (elements m2' q2').*2 ∧
    (Sorted str_le (elements m1 q1).*2 →
     (elements m1' q1').*2 = (elements m1 q1).*2).
Proof.
  intros Hrep1 Hrep2 Hperm.
  destruct (q_sort_spec m1 q1 l1 Hrep1) as (m1' & q1' & Hrun1 & Hrep1' & _).
  destruct (q_sort_spec m2 q2 l2 Hrep2) as (m2' & q2' & Hrun2 & Hrep2' & _).
  exists m1', q1', m2', q2'.
  rewrite (elements_values _ _ _ Hrep1), (elements_values _ _ _ Hrep2) in *.
  rewrite (elements_values _ _ _ Hrep1'), (elements_values _ _ _ Hrep2').
  assert (∀ m q l, queue_rep m q l → (length l ≤ S (S (chain_fuel m)))%nat)
    as Hfuel.
  { intros m q l [[Hl Hn _ _ _] _ _].
    pose proof (lseg_length_fuel _ _ _ _ Hl Hn). lia. }
  rewrite !values_sort_list by eauto.
  split_and!; [done|done|done| |].
  - apply (Sorted_unique str_le).
    + apply Sorted_merge_sort, _.
    + apply Sorted_merge_sort, _.
    + by rewrite !merge_sort_Permutation.
  - intros Hsorted. apply (Sorted_unique str_le).
    + apply Sorted_merge_sort, _.
    + done.
    + apply merge_sort_Permutation.
Qed.

(** The theorem at the queues ["banana"; "apple"; "cherry"] and
    ["cherry"; "banana"; "apple"]. *)
Lemma sort_result_depends_on_strings_only_witness :
  queue_rep fruit_mem fruit_queue fruit_list ∧
  queue_rep (mem_of ["cherry"; "banana"; "apple"]%string)
            (handle_of ["cherry"; "banana"; "apple"]%string)
            [Elem 1 2 (bytes "cherry"); Elem 3 4 (bytes "banana");
             Elem 5 6 (bytes "apple")] ∧
  ∃ m1' q1' m2' q2',
    q_sort fruit_mem (Some fruit_queue) = Some (m1', Some q1') ∧
    q_sort (mem_of ["cherry"; "banana"; "apple"]%string)
           (Some (handle_of ["cherry"; "banana"; "apple"]%string)) =
      Some (m2', Some q2') ∧
    (elements m1' q1').*2 = (elements m2' q2').*2.
Proof.
  assert (queue_rep fruit_mem fruit_queue fruit_list) as Hrep1.
  { apply queue_rep_check_correct. vm_compute. reflexivity. }
  assert (queue_rep (mem_of ["cherry"; "banana"; "apple"]%string)
            (handle_of ["cherry"; "banana"; "apple"]%string)
            [Elem 1 2 (bytes "cherry"); Elem 3 4 (bytes "banana");
             Elem 5 6 (bytes "apple")]) as Hrep2.
  { apply queue_rep_check_correct. vm_compute. reflexivity. }
  split; [exact Hrep1|]. split; [exact Hrep2|].
  destruct (sort_result_depends_on_strings_only _ _ _ _ _ _ Hrep1 Hrep2)
    as (m1' & q1' & m2' & q2' & Hrun1 & Hrun2 & _ & Heq & _).
  { rewrite (elements_values _ _ _ Hrep1), (elements_values _ _ _ Hrep2).
    change ([bytes "banana"; bytes "apple"; bytes "cherry"] ≡ₚ
            [bytes "cherry"; bytes "banana"; bytes "apple"]).
    symmetry.
    apply (Permutation_cons_append [bytes "banana"; bytes "apple"]). }
  exists m1', q1', m2', q2'. split_and!; assumption.
Defined.

(** X14: [q_sort] followed by [q_reverse] arranges the queue in descending
    order: the result holds the same elements and [comparator] on every
    adjacent pair of the resulting chain is at least 0. *)
Theorem sort_then_reverse_descending m q l :
  queue_rep m q l →
  ∃ m1 q1 m2 q2 l2,
    q_sort m (Some q) = Some (m1, Some q1) ∧
    q_reverse m1 (Some q1) = Some (m2, Some q2) ∧
    queue_rep m2 q2 l2 ∧ l2 ≡ₚ l ∧
    (∀ i x y, l2 !! i = Some x → l2 !! S i = Some y →
       ∃ c, comparator m2 (Some (node x)) (Some (node y)) = Some c ∧ 0 ≤ c).
Proof.
  intros Hrep.
  destruct (q_sort_spec m q l Hrep) as (m1 & q1 & Hrun1 & Hrep1 & _).
  destruct (q_reverse_spec m1 q1 _ Hrep1) as (m2 & q2 & Hrun2 & Hrep2 & _).
  set (l1 := sort_list (S (chain_fuel m)) l) in *.
  exists m1, q1, m2, q2, (reverse l1). split_and!; [done|done|done| |].
  - rewrite reverse_Permutation. apply sort_list_perm.
  - intros i x y Hx Hy. destruct Hrep2 as [[Hl2 _ _ _ _] _ _].
    rewrite (comparator_eq m2 _ (reverse l1) i x _ (reverse l1) (S i) y)
      by done.
    eexists. split; [done|].
    apply reverse_lookup_Some in Hx as [Hx Hi].
    apply reverse_lookup_Some in Hy as [Hy HSi].
    assert (ascending y x) as Hasc.
    { apply (sorted_adjacent ascending l1 (length l1 - S (S i)) y x).
      - apply sort_list_sorted.
        destruct Hrep as [[Hl Hn _ _ _] _ _].
        pose proof (lseg_length_fuel _ _ _ _ Hl Hn). lia.
      - done.
      - rewrite <-Hx. f_equal. lia. }
    unfold ascending in Hasc. rewrite (strcmp_antisym (val y) (val x)). lia.
Qed.

Lemma sort_then_reverse_descending_witness :
  queue_rep fruit_mem fruit_queue fruit_list ∧
  ∃ m1 q1 m2 q2 l2,
    q_sort fruit_mem (Some fruit_queue) = Some (m1, Some q1) ∧
    q_reverse m1 (Some q1) = Some (m2, Some q2) ∧
    queue_rep m2 q2 l2 ∧ l2 ≡ₚ fruit_list.
Proof.
  assert (queue_rep fruit_mem fruit_queue fruit_list) as Hrep.
  { apply queue_rep_check_correct. vm_compute. reflexivity. }
  split; [exact Hrep|].
  destruct (sort_then_reverse_descending _ _ _ Hrep)
    as (m1 & q1 & m2 & q2 & l2 & Hrun1 & Hrun2 & Hrep2 & Hperm & _).
  exists m1, q1, m2, q2, l2. split_and!; assumption.
Defined.

(** X15: after [q_sort], [q_remove_head] yields a smallest string of the
    queue: the string stored through [sp] is one of the queue's strings
    and [strcmp] of it with every string of the queue is at most 0. *)
Theorem sort_then_remove_head_yields_minimum m q l sp bufsize :
  queue_rep m q l → l ≠ [] →
  Forall (λ x, strlen (val x) < bufsize) l → bufsize ≤ SIZE_MAX →
  ∃ m1 q1 m2 q2 s,
    q_sort m (Some q) = Some (m1, Some q1) ∧
    q_remove_head m1 (Some q1) (Some sp) bufsize =
      Some (m2, Some q2, Some (s ++ ["000"%byte]), true) ∧
    s ∈ (elements m q).*2 ∧
    (∀ t, t ∈ (elements m q).*2 → strcmp s t ≤ 0) ∧
    q_size (Some q2) = q_size (Some q) - 1.
Proof.
  intros Hrep Hne Hlen Hb.
  destruct (q_sort_spec m q l Hrep) as (m1 & q1 & Hrun1 & Hrep1 & Hc1).
  set (l1 := sort_list (S (chain_fuel m)) l) in *.
  assert (l1 ≡ₚ l) as Hperm by apply sort_list_perm.
  assert (StronglySorted ascending l1) as Hsorted.
  { apply sort_list_sorted. destruct Hrep as [[Hl Hn _ _ _] _ _].
    pose proof (lseg_length_fuel _ _ _ _ Hl Hn). lia. }
  destruct l1 as [|x l1'] eqn:Hl1.
  { apply Permutation_nil_l in Hperm. by subst l. }
  assert (strlen (val x) < bufsize) as Hx.
  { rewrite <-Hperm in Hlen. by apply Forall_cons in Hlen as [? _]. }
  assert (0 ≤ strlen (val x)) by (unfold strlen; lia).
  destruct (q_remove_head_spec m1 q1 x l1' (Some sp) bufsize Hrep1)
    as (m2 & q2 & Hrun2 & Hrep2); [lia|].
  unfold copied in Hrun2. rewrite bool_decide_false in Hrun2 by lia.
  rewrite Z.min_l, take_strlen in Hrun2 by lia.
  exists m1, q1, m2, q2, (val x).
  rewrite (elements_values _ _ _ Hrep). unfold values.
  split_and!; [done|done| | |].
  - rewrite <-Hperm, fmap_cons. left.
  - intros t Ht. rewrite <-Hperm, fmap_cons in Ht.
    apply elem_of_cons in Ht as [->|Ht].
    + by rewrite strcmp_refl.
    + apply list_elem_of_fmap in Ht as (y & -> & Hy).
      apply StronglySorted_inv in Hsorted as [_ Hall].
      by apply (proj1 (Forall_forall _ _) Hall).
  - cbn [q_size]. destruct Hrep2 as [_ -> _]. destruct Hrep1 as [_ Hc _].
    rewrite <-Hc1, Hc. simpl. lia.
Qed.

Lemma sort_then_remove_head_yields_minimum_witness :
  queue_rep fruit_mem fruit_queue fruit_list ∧
  ∃ m1 q1 m2 q2 s,
    q_sort fruit_mem (Some fruit_queue) = Some (m1, Some q1) ∧
    q_remove_head m1 (Some q1) (Some 1%positive) 7 =
      Some (m2, Some q2, Some (s ++ ["000"%byte]), true) ∧
    s ∈ (elements fruit_mem fruit_queue).*2.
Proof.
  assert (queue_rep fruit_mem fruit_queue fruit_list) as Hrep.
  { apply queue_rep_check_correct. vm_compute. reflexivity. }
  split; [exact Hrep|].
  destruct (sort_then_remove_head_yields_minimum fruit_mem fruit_queue
              fruit_list 1%positive 7 Hrep)
    as (m1 & q1 & m2 & q2 & s & Hrun1 & Hrun2 & Hs & _).
  { discriminate. }
  { repeat constructor; vm_compute; congruence. }
  { vm_compute. congruence. }
  exists m1, q1, m2, q2, s. split_and!; assumption.
Defined.

(** X16: a null handle, as [q_new] returns it when its allocation fails,
    is never dereferenced: any sequence of calls of the five operations
    on it leaves the memory as it was and the handle null, [q_size] is 0
    and [q_free] does nothing. *)
Theorem null_handle_is_inert m ops :
  run ops m (q_new false) = Some (m, None) ∧
  q_size (q_new false) = 0 ∧
  q_free m (q_new false) = Some m.
Proof. split; [apply run_null|done]. Qed.

(** X17: an insertion keeps only the first [(int) strlen(s)] bytes of its
    argument.  Whenever that number [k] is not negative and [k + 1] is an
    [int], [q_insert_head] and [q_insert_tail] of [s] behave exactly as
    those of the first [k] bytes of [s]: this is all of [s] when it has
    less than [INT_MAX] bytes, and a string of [2^32 + j] bytes is stored
    as its first [j] bytes. *)
Theorem insert_keeps_int_strlen_bytes node_ok str_ok m q s :
  0 ≤ to_int (strlen s) < INT_MAX →
  let k := Z.to_nat (to_int (strlen s)) in
  q_insert_head node_ok str_ok m q s =
    q_insert_head node_ok str_ok m q (take k s) ∧
  q_insert_tail node_ok str_ok m q s =
    q_insert_tail node_ok str_ok m q (take k s) ∧
  (strlen s < INT_MAX → take k s = s) ∧
  (∀ j, 0 ≤ j < INT_MAX → strlen s = 4294967296 + j →
        strlen (take k s) = j).
Proof.
  intros [Hk _] k. split_and!.
  - unfold q_insert_head. destruct q as [q0|]; [|done].
    destruct (malloc_ele node_ok m) as [newh m1]. destruct newh; [|done].
    destruct (malloc_str str_ok m1) as [v m2].
    destruct (store_value m2 _ v) as [m3|]; [|done]. cbn [mbind option_bind].
    destruct v; [|done]. by rewrite copy_string_prefix.
  - unfold q_insert_tail. destruct q as [q0|]; [|done].
    destruct (malloc_ele node_ok m) as [newh m1]. destruct newh; [|done].
    destruct (malloc_str str_ok m1) as [v m2].
    destruct (store_value m2 _ v) as [m3|]; [|done]. cbn [mbind option_bind].
    destruct v; [|done]. by rewrite copy_string_prefix.
  - intros Hs. unfold k. rewrite to_int_strlen by lia. apply take_strlen.
  - intros j Hj Hlen. unfold k. rewrite Hlen, to_int_wrap by lia.
    unfold strlen in *. rewrite length_take. lia.
Qed.

(** The theorem at a string of [2^32 + 2] bytes "a": its insertion is the
    insertion of "aa". *)
Lemma insert_keeps_int_strlen_bytes_witness :
  strlen wide_string = 4294967298 ∧
  0 ≤ to_int (strlen wide_string) < INT_MAX ∧
  q_insert_head true true fruit_mem (Some fruit_queue) wide_string =
    q_insert_head true true fruit_mem (Some fruit_queue) (bytes "aa") ∧
  q_insert_tail true true fruit_mem (Some fruit_queue) wide_string =
    q_insert_tail true true fruit_mem (Some fruit_queue) (bytes "aa") ∧
  (∃ m' q',
     q_insert_head true true fruit_mem (Some fruit_queue) (bytes "aa") =
       Some (m', Some q', true) ∧
     (elements m' q').*2 = bytes <$> ["aa"; "banana"; "apple"; "cherry"]%string).
Proof.
  assert (strlen wide_string = 4294967298) as Hlen.
  { unfold wide_string. by apply strlen_repeat. }
  assert (to_int (strlen wide_string) = 2) as Hint.
  { rewrite Hlen. apply (to_int_wrap 2). unfold INT_MAX. lia. }
  assert (0 ≤ to_int (strlen wide_string) < INT_MAX) as Hk.
  { rewrite Hint. unfold INT_MAX. lia. }
  assert (take (Z.to_nat (to_int (strlen wide_string))) wide_string =
          bytes "aa") as Htake.
  { rewrite Hint. unfold wide_string.
    replace (Z.to_nat 4294967298) with (2 + Z.to_nat 4294967296)%nat by lia.
    rewrite repeat_app. reflexivity. }
  split; [exact Hlen|]. split; [exact Hk|].
  destruct (insert_keeps_int_strlen_bytes true true fruit_mem
              (Some fruit_queue) wide_string Hk) as (Hhead & Htail & _).
  cbv zeta in Hhead, Htail. rewrite Htake in Hhead, Htail.
  split; [exact Hhead|]. split; [exact Htail|].
  eexists _, _. split; vm_compute; reflexivity.
Defined.
